(** * Higher order markov chains of libefgy: [include/ef.gy/markov.h]

    A shallow embedding of [efgy::markov::chain<T, order, rng, counter>]:
    the transition table (a [std::map] from memory windows to a [std::map]
    from optional symbols to counters), the trainer [chain::train] and the
    generator [chain::operator()].

    Machine integers are modelled as [Z] with their wrap-around written
    out; the two [std::map]s are modelled as association lists kept in key
    order, because the generator iterates over a transition in key order. *)

From Stdlib Require Import ZArith NArith List Bool Lia Permutation.
Import ListNotations.
Open Scope Z_scope.

(** ** Machine integers *)

(** [counter] is the template's default, [unsigned long]: 64 bits on the
    LP64 targets the library is built for.  Arithmetic is modulo [2^64]. *)
Module Counter.
Definition modulus : Z := 2 ^ 64.
Definition wrap (z : Z) : Z := z mod modulus.
Definition add (a b : Z) : Z := wrap (a + b).
Definition sub (a b : Z) : Z := wrap (a - b).
Definition in_range (z : Z) : Prop := 0 <= z < modulus.
End Counter.

(** [int], 32 bits, two's complement.  It enters the generator through the
    literal [0] that is the initial value of [std::accumulate]: the
    accumulator has the type of that literal. *)
Module Int.
Definition modulus : Z := 2 ^ 32.
Definition half : Z := 2 ^ 31.
(** [unsigned long] to [int]: reduction modulo [2^32], read as signed. *)
Definition of_counter (z : Z) : Z :=
  let u := z mod modulus in if u <? half then u else u - modulus.
(** [int] to [unsigned long]: sign extension, i.e. reduction modulo [2^64]. *)
Definition to_counter (i : Z) : Z := Counter.wrap i.
End Int.

(** ** Optional symbols *)

(** Modelled from the spec: [ef.gy/maybe.h] is not among the sources.  The
    optional symbol is "either a concrete Symbol or terminator", a tagged
    two-variant value; [maybe<T>()] is [nothing], the conversion from [T]
    is [just], the conversion to [bool] tells the two apart and the
    conversion to [T] reads the symbol. *)
Inductive maybe (T : Type) : Type :=
| nothing : maybe T
| just (x : T) : maybe T.
Arguments nothing {T}.
Arguments just {T} x.

(** ** [std::map] as an association list in key order *)

Section OrdMap.
Context {K V : Type}.
(** The comparison of the map, [std::less<K>], i.e. [operator<] on keys. *)
Variable lt : K -> K -> bool.

(** Two keys are the same key of a [std::map] when neither is less than
    the other. *)
Definition equiv (a b : K) : bool := negb (lt a b) && negb (lt b a).

(** [std::map::find]: the value stored under a key equivalent to [k], or
    [None] for [end()]. *)
Fixpoint find (k : K) (m : list (K * V)) : option V :=
  match m with
  | [] => None
  | (k', v) :: m' => if equiv k k' then Some v else find k m'
  end.

(** [m[k] = f (m[k])]: [std::map::operator[]] followed by an update
    through the reference it returns.  An absent key is first inserted, at
    its place in key order, with the value-initialised [dflt]. *)
Fixpoint subscript (k : K) (dflt : V) (f : V -> V) (m : list (K * V))
  : list (K * V) :=
  match m with
  | [] => [(k, f dflt)]
  | (k', v) :: m' =>
      if lt k k' then (k, f dflt) :: (k', v) :: m'
      else if lt k' k then (k', v) :: subscript k dflt f m'
      else (k', f v) :: m'
  end.
End OrdMap.

(** [operator<] of [std::array]: [std::lexicographical_compare] over the
    elements. *)
Fixpoint lexicographical_compare {A : Type} (lt : A -> A -> bool)
  (a b : list A) : bool :=
  match a, b with
  | _, [] => false
  | [], _ :: _ => true
  | x :: a', y :: b' =>
      if lt x y then true
      else if lt y x then false
      else lexicographical_compare lt a' b'
  end.

(** ** The chain *)

Section Chain.
(** [T], the data type of the model. *)
Variable T : Type.
(** [operator<] on [maybe<T>], the key comparison of a transition.  It is
    declared in [ef.gy/maybe.h], which is not among the sources, and is a
    parameter of the model. *)
Variable maybe_lt : maybe T -> maybe T -> bool.
(** [order], the length of the memory. *)
Variable order : nat.
(** [rng], the functor class of the PRNG, as a state and the function
    that [RNG()] computes on it: the unsigned value drawn and the next
    state. *)
Variable random : Type.
Variable draw : random -> N * random.

Definition input := list T.
Definition output := list T.
(** [std::array<maybe<T>, order>] *)
Definition memory := list (maybe T).
(** [std::map<maybe<T>, counter>] *)
Definition transition := list (maybe T * Z).
Definition table := list (memory * transition).

Record chain : Type := { RNG : random; transitions : table }.

(** [chain(const random &pRNG)] *)
Definition fresh (pRNG : random) : chain :=
  {| RNG := pRNG; transitions := [] |}.

Definition memory_lt : memory -> memory -> bool :=
  lexicographical_compare maybe_lt.

(** [memory()], and the default-initialised [memory m]: every element is
    [maybe<T>()]. *)
Definition null_state : memory := repeat nothing order.

(** [std::transform(s.begin() + 1, s.end(), s.begin(), id);
    *(s.end() - 1) = v;]  For [order = 0] the source reads and writes
    outside the array; the model leaves the empty memory as it is. *)
Definition shift (s : memory) (v : T) : memory :=
  match s with
  | [] => []
  | _ :: s' => s' ++ [just v]
  end.

(** [transitions[s][k] += c] *)
Definition bump (s : memory) (k : maybe T) (c : Z) (tr : table) : table :=
  subscript memory_lt s []
    (subscript maybe_lt k 0 (fun n => Counter.add n c)) tr.

(** The lambda that [train] folds along the input; the table it mutates
    through [this] is passed along with the memory. *)
Definition train_fold (c : Z) (st : memory * table) (v : T)
  : memory * table :=
  (shift (fst st) v, bump (fst st) (just v) c (snd st)).

(** [chain::train] *)
Definition train (inp : input) (c : Z) (ch : chain) : chain :=
  let st := fold_left (train_fold c) inp (null_state, transitions ch) in
  {| RNG := RNG ch;
     transitions := bump (fst st) nothing 1 (snd st) |}.

(** A series of [train] calls, first to last. *)
Definition train_all (calls : list (input * Z)) (ch : chain) : chain :=
  fold_left (fun ch call => train (fst call) (snd call) ch) calls ch.

(** [std::accumulate(it->second.begin(), it->second.end(), 0, ...)],
    converted to [counter]: the accumulator is an [int]; at each entry it
    is converted to [counter] for the lambda, whose [counter] result is
    stored back into the [int]. *)
Definition accumulate (d : transition) : Z :=
  Int.to_counter
    (fold_left
       (fun v t => Int.of_counter (Counter.add (Int.to_counter v) (snd t)))
       d 0).

(** What the range-based [for] over the transition does with the drawn
    value. *)
Inductive pick : Type :=
| Emit (x : T)     (* [push_back], shift, [break] *)
| Stop             (* [return rv] *)
| Exhausted.       (* the loop ran off the end of the transition *)

Fixpoint scan (d : transition) (c : Z) : pick :=
  match d with
  | [] => Exhausted
  | (k, n) :: d' =>
      if n <? c then scan d' (Counter.sub c n)
      else match k with
           | just x => Emit x
           | nothing => Stop
           end
  end.

(** How a call of [operator()] ends. *)
Inductive outcome : Type :=
| Returned (rv : output)
| ImpossibleState      (* [throw std::runtime_error] *)
| DivideByZero         (* [RNG() % 0], undefined behaviour *)
| OutOfFuel.           (* the loop was cut off by the model *)

(** One pass of the outer loop either goes round again, with new locals
    [rv] and [m], or ends the call; the chain is passed along because
    [RNG()] changes it. *)
Inductive step : Type :=
| Next (ch : chain) (rv : output) (m : memory)
| Done (o : outcome) (ch : chain).

(** The chain as a pass of the loop leaves it. *)
Definition step_chain (s : step) : chain :=
  match s with
  | Next ch _ _ => ch
  | Done _ ch => ch
  end.

(** The inner [for] with its effects on [rv] and [m]. *)
Definition sample (d : transition) (c : Z) (ch : chain) (rv : output)
  (m : memory) : step :=
  match scan d c with
  | Emit x => Next ch (rv ++ [x]) (shift m x)
  | Stop => Done (Returned rv) ch
  | Exhausted => Next ch rv m
  end.

(** The condition and the body of the outer loop. *)
Definition iteration (ch : chain) (rv : output) (m : memory) : step :=
  match find memory_lt m (transitions ch) with
  | None => Done ImpossibleState ch
  | Some d =>
      let c := accumulate d in
      let r := draw (RNG ch) in
      let ch' := {| RNG := snd r; transitions := transitions ch |} in
      if c =? 0 then Done DivideByZero ch'
      else sample d (Z.of_N (fst r) mod c) ch' rv m
  end.

Fixpoint loop (fuel : nat) (ch : chain) (rv : output) (m : memory)
  : outcome * chain :=
  match fuel with
  | O => (OutOfFuel, ch)
  | S fuel' =>
      match iteration ch rv m with
      | Next ch' rv' m' => loop fuel' ch' rv' m'
      | Done o ch' => (o, ch')
      end
  end.

(** [chain::operator()], cut off after [fuel] passes of the outer loop. *)
Definition generate (fuel : nat) (ch : chain) : outcome * chain :=
  loop fuel ch [] null_state.

(** The chain and the locals [rv] and [m] after [n] passes of the outer
    loop, when the call has not ended before. *)
Fixpoint after (n : nat) (ch : chain) (rv : output) (m : memory)
  : option (chain * output * memory) :=
  match n with
  | O => Some (ch, rv, m)
  | S n' =>
      match iteration ch rv m with
      | Next ch' rv' m' => after n' ch' rv' m'
      | Done _ _ => None
      end
  end.

(** The sum of the counters of a transition, as a number. *)
Definition total_count (d : transition) : Z :=
  fold_right (fun t acc => snd t + acc) 0 d.

End Chain.

Arguments RNG {T random} c.
Arguments transitions {T random} c.
Arguments fresh {T random} pRNG.
Arguments memory_lt {T} maybe_lt _ _.
Arguments null_state {T} order.
Arguments shift {T} s v.
Arguments bump {T} maybe_lt s k c tr.
Arguments train_fold {T} maybe_lt c st v.
Arguments train {T} maybe_lt order {random} inp c ch.
Arguments train_all {T} maybe_lt order {random} calls ch.
Arguments accumulate {T} d.
Arguments Emit {T} x.
Arguments Stop {T}.
Arguments Exhausted {T}.
Arguments scan {T} d c.
Arguments Returned {T} rv.
Arguments ImpossibleState {T}.
Arguments DivideByZero {T}.
Arguments OutOfFuel {T}.
Arguments Next {T random} ch rv m.
Arguments Done {T random} o ch.
Arguments step_chain {T random} s.
Arguments sample {T random} d c ch rv m.
Arguments iteration {T} maybe_lt {random} draw ch rv m.
Arguments loop {T} maybe_lt {random} draw fuel ch rv m.
Arguments generate {T} maybe_lt order {random} draw fuel ch.
Arguments after {T} maybe_lt {random} draw n ch rv m.
Arguments total_count {T} d.

(** ** Auxiliary notions used by the statements *)

(** What the statements ask of a key comparison: no key is below itself,
    and two keys neither of which is below the other are the same.  (That
    is what makes [equiv] the equality of keys.) *)
Record key_order {K : Type} (lt : K -> K -> bool) : Prop := {
  lt_irrefl : forall a, lt a a = false;
  lt_total : forall a b, lt a b = false -> lt b a = false -> a = b
}.

Section Notions.
Context {T : Type}.

(** The scan of a transition as the specification words it: an entry with
    count [n] is the outcome exactly when the remainder is below [n],
    otherwise the remainder is decreased by [n]. *)
Fixpoint scan_spec (d : transition T) (r : Z) : pick T :=
  match d with
  | [] => Exhausted
  | (k, n) :: d' =>
      if r <? n then match k with
                     | just x => Emit x
                     | nothing => Stop
                     end
      else scan_spec d' (r - n)
  end.

(** The pairs (remainder, count) at which [scan] executes [c -= t.second]. *)
Fixpoint subtractions (d : transition T) (c : Z) : list (Z * Z) :=
  match d with
  | [] => []
  | (_, n) :: d' =>
      if n <? c then (c, n) :: subtractions d' (Counter.sub c n) else []
  end.

(** The memories that [train] goes through on an input, from [m] on. *)
Fixpoint windows (m : memory T) (inp : input T) : list (memory T) :=
  match inp with
  | [] => [m]
  | v :: inp' => m :: windows (shift m v) inp'
  end.

(** What one [train] call with count [c] writes when each of its memories
    is new to the table: one symbol per memory, and the terminator, counted
    once, at the last. *)
Fixpoint entries (c : Z) (m : memory T) (inp : input T) : table T :=
  match inp with
  | [] => [(m, [(nothing, Counter.add 0 1)])]
  | v :: inp' =>
      (m, [(just v, Counter.add 0 c)]) :: entries c (shift m v) inp'
  end.

(** The sum of all counters of a table. *)
Definition table_count (tr : table T) : Z :=
  fold_right (fun e acc => total_count (snd e) + acc) 0 tr.

(** The number of increments a series of [train] calls asks for: the count
    for every symbol, and one for the terminator. *)
Definition budget (calls : list (input T * Z)) : Z :=
  fold_right (fun call acc => snd call * Z.of_nat (length (fst call)) + 1 + acc)
    0 calls.

(** Every transition of the table has non-negative counters and a
    positive total. *)
Definition well_counted (tr : table T) : Prop :=
  Forall (fun e => 0 < total_count (snd e) /\
                   Forall (fun t => 0 <= snd t) (snd e)) tr.

(** Every call has a count that is positive and fits [counter]. *)
Definition positive_weights (calls : list (input T * Z)) : Prop :=
  Forall (fun call => 0 < snd call < Counter.modulus) calls.
End Notions.

(** ** The chain over [int] used in the concrete scenarios *)

Module IntChain.
(** Modelled from the spec: [operator<] on [maybe<int>] is declared in
    [ef.gy/maybe.h], which is not among the sources.  The optional symbol
    "must support equality and a total order"; here the terminator sorts
    before every symbol and symbols sort as integers. *)
Definition maybe_lt (a b : maybe Z) : bool :=
  match a, b with
  | nothing, nothing => false
  | nothing, just _ => true
  | just _, nothing => false
  | just x, just y => x <? y
  end.

(** The other total order of that kind: the terminator sorts after every
    symbol. *)
Definition maybe_lt_last (a b : maybe Z) : bool :=
  match a, b with
  | nothing, nothing => false
  | nothing, just _ => false
  | just _, nothing => true
  | just x, just y => x <? y
  end.

(** A random source that returns [v] at every call. *)
Definition constant (v : N) : unit -> N * unit := fun u => (v, u).

Definition train1 := @train Z maybe_lt 1%nat unit.
Definition generate1 := @generate Z maybe_lt 1%nat unit.
Definition empty : chain Z unit := fresh tt.
End IntChain.


(** ** Notions for the further properties *)

(** A strict total order on keys, which is what [std::map] asks of its
    comparison once equivalent keys are equal. *)
Record strict_order {K : Type} (lt : K -> K -> bool) : Prop := {
  so_keys : key_order lt;
  so_trans : forall a b c, lt a b = true -> lt b c = true -> lt a c = true
}.

(** The keys of an association list ascend strictly: the state a [std::map]
    is in between operations. *)
Fixpoint ascending {K V : Type} (lt : K -> K -> bool) (m : list (K * V))
  : Prop :=
  match m with
  | [] => True
  | e :: m' =>
      Forall (fun e' => lt (fst e) (fst e') = true) m' /\ ascending lt m'
  end.

Section MoreNotions.
Context {T : Type}.
Variable maybe_lt : maybe T -> maybe T -> bool.

(** The table and every transition in it are in key order. *)
Definition table_sorted (tr : table T) : Prop :=
  ascending (memory_lt maybe_lt) tr /\
  Forall (fun e => ascending maybe_lt (snd e)) tr.

(** The counter of successor [k] after memory [w], 0 when there is none. *)
Definition count_of (tr : table T) (w : memory T) (k : maybe T) : Z :=
  match find (memory_lt maybe_lt) w tr with
  | Some d => match find maybe_lt k d with
              | Some n => n
              | None => 0
              end
  | None => 0
  end.

(** The memory [train] is left with at the end of an input. *)
Definition final_memory (m : memory T) (inp : input T) : memory T :=
  fold_left shift inp m.

(** The number of places of an input, read from memory [m] on, at which
    the memory is [w] and the symbol read is [k]. *)
Fixpoint occurrences (w : memory T) (k : maybe T) (m : memory T)
  (inp : input T) : Z :=
  match inp with
  | [] => 0
  | v :: inp' =>
      (if equiv (memory_lt maybe_lt) w m && equiv maybe_lt k (just v)
       then 1 else 0)
      + occurrences w k (shift m v) inp'
  end.

(** 1 when [w] is the memory at the end of the input and [k] the
    terminator, 0 otherwise. *)
Definition ends_with (w : memory T) (k : maybe T) (m : memory T)
  (inp : input T) : Z :=
  if equiv (memory_lt maybe_lt) w (final_memory m inp)
     && equiv maybe_lt k nothing
  then 1 else 0.

(** The increments [transitions[s][k] += c] that one [train] call makes,
    in the order it makes them. *)
Fixpoint steps (c : Z) (m : memory T) (inp : input T)
  : list (memory T * maybe T * Z) :=
  match inp with
  | [] => [(m, nothing, 1)]
  | v :: inp' => (m, just v, c) :: steps c (shift m v) inp'
  end.

Definition apply_steps (l : list (memory T * maybe T * Z)) (tr : table T)
  : table T :=
  fold_left (fun tr s => bump maybe_lt (fst (fst s)) (snd (fst s)) (snd s) tr)
    l tr.

(** The table has an entry for memory [w]. *)
Definition has_key (w : memory T) (tr : table T) : Prop :=
  exists d, In (w, d) tr.

(** Every symbol recorded as a successor leads to a memory that has an
    entry of its own. *)
Definition closed (tr : table T) : Prop :=
  forall w d x n, In (w, d) tr -> In (just x, n) d -> has_key (shift w x) tr.

(** [rv] can be read off the table from memory [m] on: each symbol is a
    recorded successor of the memory before it, and the terminator is a
    recorded successor of the last memory. *)
Fixpoint walk (tr : table T) (m : memory T) (rv : output T) : Prop :=
  match rv with
  | [] =>
      exists d n, find (memory_lt maybe_lt) m tr = Some d /\ In (nothing, n) d
  | x :: rv' =>
      (exists d n, find (memory_lt maybe_lt) m tr = Some d /\ In (just x, n) d)
      /\ walk tr (shift m x) rv'
  end.
End MoreNotions.

(** The state of the random source after [n] calls of [RNG()]. *)
Definition advance {random : Type} (draw : random -> N * random) (n : nat)
  (g : random) : random :=
  Nat.iter n (fun g => snd (draw g)) g.

Section Operators.
Context {T random : Type}.
Variable maybe_lt : maybe T -> maybe T -> bool.
Variable order : nat.

(** [chain &operator<<(const input &input)] *)
Definition shl_input (inp : input T) (ch : chain T random) : chain T random :=
  train maybe_lt order inp 1 ch.

(** [chain &operator<<(const std::tuple<input, counter> &in)] *)
Definition shl_tuple (i : input T * Z) (ch : chain T random)
  : chain T random :=
  train maybe_lt order (fst i) (snd i) ch.

(** [chain(const random &pRNG, const Array &pData)] for an array of
    inputs: each is fed to [operator<<]. *)
Definition chain_of_inputs (pRNG : random) (pData : list (input T))
  : chain T random :=
  fold_left (fun ch data => shl_input data ch) pData (fresh pRNG).

(** The same constructor for an array of tuples of an input and a count. *)
Definition chain_of_tuples (pRNG : random) (pData : list (input T * Z))
  : chain T random :=
  fold_left (fun ch data => shl_tuple data ch) pData (fresh pRNG).
End Operators.

(** * Facts about the association lists *)

Section OrdMapFacts.
Context {K V : Type}.
Variable lt : K -> K -> bool.

Lemma find_In (k : K) (m : list (K * V)) (v : V) :
  find lt k m = Some v -> exists k', In (k', v) m /\ equiv lt k k' = true.
Proof.
  induction m as [|[k' v'] m IH]; simpl; [discriminate|].
  destruct (equiv lt k k') eqn:E; intros H.
  - injection H as ->. exists k'. auto.
  - destruct (IH H) as (k'' & Hin & He). exists k''. auto.
Qed.

Lemma find_None (k : K) (m : list (K * V)) :
  find lt k m = None <-> (forall kv, In kv m -> equiv lt k (fst kv) = false).
Proof.
  induction m as [|[k' v'] m IH]; simpl.
  - split; [intros _ kv []|reflexivity].
  - destruct (equiv lt k k') eqn:E; split.
    + discriminate.
    + intros H. specialize (H (k', v') (or_introl eq_refl)). simpl in H.
      congruence.
    + intros H kv [<-|Hin]; [exact E|]. now apply IH.
    + intros H. apply IH. intros kv Hin. apply H. now right.
Qed.

Lemma find_unique (k : K) (m : list (K * V)) (v : V) :
  (exists k', In (k', v) m /\ equiv lt k k' = true) ->
  (forall k' v', In (k', v') m -> equiv lt k k' = true -> v' = v) ->
  find lt k m = Some v.
Proof.
  induction m as [|[k1 v1] m IH]; simpl; intros (k' & Hin & He) Hu.
  - destruct Hin.
  - destruct (equiv lt k k1) eqn:E.
    + f_equal. apply (Hu k1 v1); auto.
    + apply IH.
      * destruct Hin as [Heq|Hin]; [|eauto].
        injection Heq as -> ->. congruence.
      * intros k2 v2 Hin2. apply Hu. now right.
Qed.

(** [subscript] changes one entry, or adds one. *)
Lemma subscript_decompose (k : K) (dflt : V) (f : V -> V) (m : list (K * V)) :
  exists l1 l2 k' v,
    subscript lt k dflt f m = l1 ++ (k', f v) :: l2 /\
    ((m = l1 ++ l2 /\ v = dflt /\ k' = k) \/ m = l1 ++ (k', v) :: l2).
Proof.
  induction m as [|[k1 v1] m IH]; simpl.
  - exists [], [], k, dflt. simpl. auto.
  - destruct (lt k k1).
    + exists [], ((k1, v1) :: m), k, dflt. simpl. auto.
    + destruct (lt k1 k).
      * destruct IH as (l1 & l2 & k' & v & -> & H).
        exists ((k1, v1) :: l1), l2, k', v. simpl. split; [reflexivity|].
        destruct H as [(-> & -> & ->)| ->]; auto.
      * exists [], m, k1, v1. simpl. auto.
Qed.

(** A key that is not in the map is added, and nothing else changes. *)
Lemma subscript_fresh (k : K) (dflt : V) (f : V -> V) (m : list (K * V)) :
  (forall kv, In kv m -> equiv lt k (fst kv) = false) ->
  Permutation (subscript lt k dflt f m) ((k, f dflt) :: m).
Proof.
  induction m as [|[k1 v1] m IH]; simpl; intros H.
  - reflexivity.
  - destruct (lt k k1) eqn:E1; [reflexivity|].
    destruct (lt k1 k) eqn:E2.
    + rewrite IH by (intros kv Hin; apply H; now right).
      apply perm_swap.
    + specialize (H (k1, v1) (or_introl eq_refl)). unfold equiv in H.
      simpl in H. rewrite E1, E2 in H. discriminate.
Qed.
End OrdMapFacts.

Section LexFacts.
Context {A : Type}.
Variable lt : A -> A -> bool.

Lemma lex_irrefl (l : list A) :
  (forall a, In a l -> lt a a = false) ->
  lexicographical_compare lt l l = false.
Proof.
  induction l as [|a l IH]; simpl; intros H; [reflexivity|].
  rewrite (H a) by now left. apply IH. intros b Hb. apply H. now right.
Qed.

Lemma lex_total (Htot : forall a b, lt a b = false -> lt b a = false -> a = b)
  (l1 l2 : list A) :
  lexicographical_compare lt l1 l2 = false ->
  lexicographical_compare lt l2 l1 = false -> l1 = l2.
Proof.
  revert l2. induction l1 as [|a l1 IH]; intros [|b l2]; simpl;
    try discriminate; [reflexivity|].
  destruct (lt a b) eqn:E1; [discriminate|].
  destruct (lt b a) eqn:E2; [discriminate|].
  intros H1 H2. f_equal; auto.
Qed.

Lemma lex_key_order : key_order lt -> key_order (lexicographical_compare lt).
Proof.
  intros [Hi Ht]. split.
  - intros l. apply lex_irrefl. auto.
  - apply lex_total. exact Ht.
Qed.
End LexFacts.

Lemma equiv_refl {K : Type} (lt : K -> K -> bool) (k : K) :
  lt k k = false -> equiv lt k k = true.
Proof. unfold equiv. now intros ->. Qed.

Lemma equiv_eq {K : Type} (lt : K -> K -> bool) (a b : K) :
  key_order lt -> equiv lt a b = true -> a = b.
Proof.
  intros [_ Ht]. unfold equiv.
  destruct (lt a b) eqn:E1; [discriminate|].
  destruct (lt b a) eqn:E2; [discriminate|]. auto.
Qed.

Lemma equiv_neq {K : Type} (lt : K -> K -> bool) (a b : K) :
  key_order lt -> a <> b -> equiv lt a b = false.
Proof.
  intros Ho Hne. destruct (equiv lt a b) eqn:E; [|reflexivity].
  now apply equiv_eq in E.
Qed.

(** * Counting *)

Section CountFacts.
Context {T : Type}.
Variable maybe_lt : maybe T -> maybe T -> bool.

Lemma total_count_app (d1 d2 : transition T) :
  total_count (d1 ++ d2) = total_count d1 + total_count d2.
Proof. induction d1 as [|t d1 IH]; simpl; [reflexivity|]. rewrite IH. lia. Qed.

Lemma table_count_app (t1 t2 : table T) :
  table_count (t1 ++ t2) = table_count t1 + table_count t2.
Proof.
  unfold table_count.
  induction t1 as [|e t1 IH]; simpl; [reflexivity|]. rewrite IH. lia.
Qed.

Lemma table_count_cons (e : memory T * transition T) (tr : table T) :
  table_count (e :: tr) = total_count (snd e) + table_count tr.
Proof. reflexivity. Qed.

Lemma total_count_nonneg (d : transition T) :
  Forall (fun t => 0 <= snd t) d -> 0 <= total_count d.
Proof. induction 1; simpl; lia. Qed.

Lemma table_count_nonneg (tr : table T) :
  well_counted tr -> 0 <= table_count tr.
Proof.
  unfold table_count. induction 1 as [|e tr [He _] _ IH]; simpl; lia.
Qed.

Lemma add_exact (a b : Z) :
  0 <= a -> 0 <= b -> a + b < Counter.modulus -> Counter.add a b = a + b.
Proof. intros. unfold Counter.add, Counter.wrap. apply Z.mod_small. lia. Qed.

(** The [int] accumulator holds the sum as long as the sum fits it. *)
Lemma accumulate_fold (d : transition T) (a : Z) :
  Forall (fun t => 0 <= snd t) d -> 0 <= a ->
  a + total_count d < Int.half ->
  fold_left
    (fun v t => Int.of_counter (Counter.add (Int.to_counter v) (snd t))) d a
  = a + total_count d.
Proof.
  intros Hd. revert a. induction Hd as [|[k n] d Hn Hd IH]; intros a Ha Hs;
    simpl in *.
  - lia.
  - pose proof (total_count_nonneg d Hd) as Hp.
    assert (Hh : Int.half = 2 ^ 31) by reflexivity.
    assert (Hm : Counter.modulus = 2 ^ 64) by reflexivity.
    assert (E : Int.of_counter (Counter.add (Int.to_counter a) n) = a + n).
    { unfold Int.to_counter, Counter.wrap. rewrite (Z.mod_small a) by lia.
      rewrite add_exact by lia. unfold Int.of_counter, Int.modulus.
      rewrite Z.mod_small by lia.
      destruct (a + n <? Int.half) eqn:F; [reflexivity|].
      apply Z.ltb_ge in F. lia. }
    rewrite E, IH by lia. lia.
Qed.

Lemma accumulate_exact (d : transition T) :
  Forall (fun t => 0 <= snd t) d -> total_count d < Int.half ->
  accumulate d = total_count d.
Proof.
  intros Hd Hs. unfold accumulate. rewrite accumulate_fold by (auto; lia).
  pose proof (total_count_nonneg d Hd).
  assert (Hh : Int.half = 2 ^ 31) by reflexivity.
  assert (Hm : Counter.modulus = 2 ^ 64) by reflexivity.
  unfold Int.to_counter, Counter.wrap. apply Z.mod_small. lia.
Qed.

(** [d[k] += c] on a transition whose counters leave room for [c]. *)
Lemma subscript_count (k : maybe T) (c : Z) (d : transition T) :
  Forall (fun t => 0 <= snd t) d -> 0 < c ->
  total_count d + c < Counter.modulus ->
  let d' := subscript maybe_lt k 0 (fun n => Counter.add n c) d in
  total_count d' = total_count d + c /\ Forall (fun t => 0 <= snd t) d'.
Proof.
  intros Hd Hc Hs d'. subst d'.
  destruct (subscript_decompose maybe_lt k 0 (fun n => Counter.add n c) d)
    as (l1 & l2 & k' & v & -> & H).
  assert (Hv : 0 <= v /\ total_count d = total_count l1 + v + total_count l2
               /\ Forall (fun t => 0 <= snd t) l1
               /\ Forall (fun t => 0 <= snd t) l2).
  { destruct H as [(-> & -> & _)| ->].
    - apply Forall_app in Hd. destruct Hd. rewrite total_count_app.
      repeat split; auto; lia.
    - apply Forall_app in Hd. destruct Hd as [H1 H2].
      inversion H2; subst. rewrite total_count_app. simpl in *.
      repeat split; auto; lia. }
  destruct Hv as (Hv & Ht & H1 & H2).
  pose proof (total_count_nonneg l1 H1). pose proof (total_count_nonneg l2 H2).
  rewrite total_count_app. simpl. rewrite add_exact by lia.
  split; [lia|]. apply Forall_app. split; [exact H1|].
  constructor; [simpl; lia|exact H2].
Qed.

Lemma bump_count (s : memory T) (k : maybe T) (c : Z) (tr : table T) :
  well_counted tr -> 0 < c -> table_count tr + c < Counter.modulus ->
  well_counted (bump maybe_lt s k c tr) /\
  table_count (bump maybe_lt s k c tr) = table_count tr + c.
Proof.
  intros Hw Hc Hs. unfold bump.
  destruct (subscript_decompose (memory_lt maybe_lt) s []
              (subscript maybe_lt k 0 (fun n => Counter.add n c)) tr)
    as (l1 & l2 & s' & d & -> & H).
  assert (Hd : Forall (fun t => 0 <= snd t) d /\
               table_count tr = table_count l1 + total_count d + table_count l2
               /\ well_counted l1 /\ well_counted l2).
  { destruct H as [(-> & -> & _)| ->].
    - apply Forall_app in Hw. destruct Hw. rewrite table_count_app.
      simpl. repeat split; auto; lia.
    - apply Forall_app in Hw. destruct Hw as [H1 H2].
      inversion H2 as [|e l [_ He] Hl]; subst. rewrite table_count_app.
      rewrite table_count_cons. simpl in *.
      repeat split; auto; lia. }
  destruct Hd as (Hd & Ht & H1 & H2).
  pose proof (table_count_nonneg l1 H1). pose proof (table_count_nonneg l2 H2).
  destruct (subscript_count k c d Hd Hc) as [Hn Hf]; [lia|].
  split.
  - apply Forall_app. split; [exact H1|]. constructor; [|exact H2].
    simpl. pose proof (total_count_nonneg d Hd). split; [lia|exact Hf].
  - rewrite table_count_app, table_count_cons. simpl. lia.
Qed.
End CountFacts.

(** * The generator *)

Section GeneratorFacts.
Context {T random : Type}.
Variable maybe_lt : maybe T -> maybe T -> bool.
Variable order : nat.
Variable draw : random -> N * random.

Lemma sample_chain (d : transition T) (c : Z) (ch : chain T random)
  (rv : output T) (m : memory T) :
  step_chain (sample d c ch rv m) = ch.
Proof. unfold sample. now destruct (scan d c). Qed.

Lemma iteration_transitions (ch : chain T random) (rv : output T)
  (m : memory T) :
  transitions (step_chain (iteration maybe_lt draw ch rv m)) = transitions ch.
Proof.
  unfold iteration.
  destruct (find _ m (transitions ch)) as [d|]; [|reflexivity].
  destruct (accumulate d =? 0); [reflexivity|].
  now rewrite sample_chain.
Qed.

Lemma loop_transitions (fuel : nat) (ch : chain T random) (rv : output T)
  (m : memory T) :
  transitions (snd (loop maybe_lt draw fuel ch rv m)) = transitions ch.
Proof.
  revert ch rv m. induction fuel as [|fuel IH]; intros ch rv m; simpl.
  - reflexivity.
  - pose proof (iteration_transitions ch rv m) as H.
    destruct (iteration maybe_lt draw ch rv m) as [ch' rv' m'|o ch'];
      simpl in H.
    + now rewrite IH.
    + exact H.
Qed.

Lemma after_transitions (n : nat) (ch ch' : chain T random)
  (rv rv' : output T) (m m' : memory T) :
  after maybe_lt draw n ch rv m = Some (ch', rv', m') ->
  transitions ch' = transitions ch.
Proof.
  revert ch rv m. induction n as [|n IH]; intros ch rv m; simpl.
  - now intros [= -> _ _].
  - pose proof (iteration_transitions ch rv m) as H.
    destruct (iteration maybe_lt draw ch rv m) as [ch1 rv1 m1|o ch1];
      [|discriminate].
    simpl in H. intros Ha. apply IH in Ha. congruence.
Qed.

(** C7: a call of the generator leaves the transition table as it was,
    however the call ends; of the chain only the state of the random
    source changes. *)
Theorem generate_keeps_transitions (fuel : nat) (ch : chain T random) :
  transitions (snd (generate maybe_lt order draw fuel ch)) = transitions ch.
Proof. apply loop_transitions. Qed.

Lemma iteration_impossible (ch : chain T random) (rv : output T)
  (m : memory T) :
  (exists ch', iteration maybe_lt draw ch rv m = Done ImpossibleState ch') <->
  find (memory_lt maybe_lt) m (transitions ch) = None.
Proof.
  unfold iteration.
  destruct (find _ m (transitions ch)) as [d|]; split.
  - intros [ch' H]. destruct (accumulate d =? 0); [discriminate|].
    unfold sample in H. destruct (scan d _); discriminate.
  - discriminate.
  - reflexivity.
  - intros _. now exists ch.
Qed.

Lemma loop_impossible (fuel : nat) (ch : chain T random) (rv : output T)
  (m : memory T) :
  fst (loop maybe_lt draw fuel ch rv m) = ImpossibleState <->
  exists n ch' rv' m',
    (n < fuel)%nat /\
    after maybe_lt draw n ch rv m = Some (ch', rv', m') /\
    find (memory_lt maybe_lt) m' (transitions ch') = None.
Proof.
  revert ch rv m. induction fuel as [|fuel IH]; intros ch rv m; simpl.
  - split; [discriminate|]. intros (n & _ & _ & _ & Hn & _). lia.
  - destruct (iteration maybe_lt draw ch rv m) as [ch1 rv1 m1|o ch1] eqn:E.
    + rewrite IH. split.
      * intros (n & ch' & rv' & m' & Hn & Ha & Hf).
        exists (S n), ch', rv', m'. simpl. rewrite E.
        repeat split; [lia|assumption|assumption].
      * intros (n & ch' & rv' & m' & Hn & Ha & Hf).
        destruct n as [|n]; simpl in Ha.
        -- injection Ha as <- <- <-.
           apply (proj2 (iteration_impossible ch rv m)) in Hf.
           destruct Hf as [c Hc].
           rewrite Hc in E.
           discriminate.
        -- rewrite E in Ha. exists n, ch', rv', m'.
           repeat split; [lia|assumption|assumption].
    + simpl. split.
      * intros ->. exists 0%nat, ch, rv, m. simpl.
        repeat split; [lia|].
        apply (proj1 (iteration_impossible ch rv m)). now exists ch1.
      * intros (n & ch' & rv' & m' & Hn & Ha & Hf).
        destruct n as [|n]; simpl in Ha.
        -- injection Ha as <- <- <-.
           apply (proj2 (iteration_impossible ch rv m)) in Hf.
           destruct Hf as [c Hc].
           rewrite Hc in E.
           congruence.
        -- rewrite E in Ha. discriminate.
Qed.

(** C5: on a chain with an empty table the generator throws at the first
    lookup, that of the null state, without drawing a random number; a
    pass of the loop throws exactly when the memory is not in the table;
    and a call throws exactly when some pass finds the memory it has
    reached absent from the table. *)
Theorem generate_impossible_state :
  (forall (g : random) (fuel : nat),
      generate maybe_lt order draw (S fuel) (fresh g)
      = (ImpossibleState, fresh g)) /\
  (forall (ch : chain T random) (rv : output T) (m : memory T),
      (exists ch', iteration maybe_lt draw ch rv m = Done ImpossibleState ch')
      <-> find (memory_lt maybe_lt) m (transitions ch) = None) /\
  (forall (fuel : nat) (ch : chain T random),
      fst (generate maybe_lt order draw fuel ch) = ImpossibleState <->
      exists n ch' rv m,
        (n < fuel)%nat /\
        after maybe_lt draw n ch [] (null_state order) = Some (ch', rv, m) /\
        find (memory_lt maybe_lt) m (transitions ch) = None).
Proof.
  split; [|split].
  - reflexivity.
  - apply iteration_impossible.
  - intros fuel ch. unfold generate. rewrite loop_impossible.
    split; intros (n & ch' & rv & m & Hn & Ha & Hf);
      exists n, ch', rv, m; (repeat split; [assumption|assumption|]);
      apply after_transitions in Ha; congruence.
Qed.

(** ** The scan of a transition *)

Lemma sub_exact (c n : Z) :
  0 <= n -> n < c -> c < Counter.modulus -> Counter.sub c n = c - n.
Proof.
  intros. unfold Counter.sub, Counter.wrap. apply Z.mod_small. lia.
Qed.

Lemma scan_in_total (d : transition T) (r : Z) :
  Forall (fun t => Counter.in_range (snd t)) d ->
  Counter.in_range r -> r < total_count d ->
  scan d r <> Exhausted /\
  Forall (fun p => snd p < fst p /\ Counter.sub (fst p) (snd p) = fst p - snd p)
    (subtractions d r).
Proof.
  intros Hd. revert r. induction Hd as [|[k n] d Hn Hd IH]; intros r Hr Ht.
  - simpl in Ht. unfold Counter.in_range in Hr. lia.
  - simpl in *. unfold Counter.in_range in *.
    destruct (n <? r) eqn:E.
    + apply Z.ltb_lt in E.
      assert (Hs : Counter.sub r n = r - n) by (apply sub_exact; lia).
      destruct (IH (Counter.sub r n)) as [H1 H2]; [lia|lia|].
      split; [exact H1|]. constructor; [simpl; split; [lia|exact Hs]|exact H2].
    + split; [destruct k; discriminate|constructor].
Qed.


(** X16: the same at the level of the loop: when the total of the
    transition found is positive and fits the [int] accumulator, the value
    that the pass draws is below the total, and the pass appends one symbol
    or returns. *)
Lemma iteration_progress (ch : chain T random) (rv : output T) (m : memory T)
  (d : transition T) :
  find (memory_lt maybe_lt) m (transitions ch) = Some d ->
  Forall (fun t => Counter.in_range (snd t)) d ->
  0 < total_count d < Int.half ->
  (exists ch' x,
      iteration maybe_lt draw ch rv m = Next ch' (rv ++ [x]) (shift m x)) \/
  (exists ch', iteration maybe_lt draw ch rv m = Done (Returned rv) ch').
Proof.
  intros Hf Hd Ht. unfold iteration. rewrite Hf.
  assert (Hn : Forall (fun t : maybe T * Z => 0 <= snd t) d).
  { eapply Forall_impl; [|exact Hd]. intros t [H _]. exact H. }
  rewrite (accumulate_exact d Hn) by lia.
  destruct (total_count d =? 0) eqn:E; [apply Z.eqb_eq in E; lia|].
  set (r := Z.of_N (fst (draw (RNG ch))) mod total_count d).
  assert (Hr : 0 <= r < total_count d) by (apply Z.mod_pos_bound; lia).
  assert (Hh : Int.half = 2 ^ 31) by reflexivity.
  assert (Hm : Counter.modulus = 2 ^ 64) by reflexivity.
  destruct (scan_in_total d r Hd) as [Hs _];
    [unfold Counter.in_range; lia|lia|].
  unfold sample. destruct (scan d r) as [x| |].
  - left. eexists. exists x. reflexivity.
  - right. eexists. reflexivity.
  - contradiction.
Qed.
End GeneratorFacts.

(** * The trainer *)

Section TrainerFacts.
Context {T random : Type}.
Variable maybe_lt : maybe T -> maybe T -> bool.
Variable order : nat.

Lemma fold_train_count (c : Z) (inp : input T) :
  0 < c -> forall (m : memory T) (tr : table T),
  well_counted tr ->
  table_count tr + c * Z.of_nat (length inp) < Counter.modulus ->
  let st := fold_left (train_fold maybe_lt c) inp (m, tr) in
  well_counted (snd st) /\
  table_count (snd st) = table_count tr + c * Z.of_nat (length inp).
Proof.
  intros Hc. induction inp as [|v inp IH]; intros m tr Hw Hs.
  - simpl. split; [exact Hw|lia].
  - cbn [fold_left]. unfold train_fold at 2 4. cbn [fst snd].
    rewrite length_cons, Nat2Z.inj_succ in *.
    destruct (bump_count maybe_lt m (just v) c tr Hw Hc) as [Hw1 Ht1]; [nia|].
    destruct (IH (shift m v) _ Hw1) as [Hw2 Ht2]; [nia|].
    split; [exact Hw2|]. rewrite Ht2, Ht1. nia.
Qed.

Lemma train_count (inp : input T) (c : Z) (ch : chain T random) :
  0 < c -> well_counted (transitions ch) ->
  table_count (transitions ch) + c * Z.of_nat (length inp) + 1
  < Counter.modulus ->
  well_counted (transitions (train maybe_lt order inp c ch)) /\
  table_count (transitions (train maybe_lt order inp c ch))
  = table_count (transitions ch) + c * Z.of_nat (length inp) + 1.
Proof.
  intros Hc Hw Hs. unfold train. cbn [transitions].
  destruct (fold_train_count c inp Hc (null_state order) _ Hw) as [Hw1 Ht1];
    [lia|].
  destruct (bump_count maybe_lt
              (fst (fold_left (train_fold maybe_lt c) inp
                      (null_state order, transitions ch)))
              nothing 1 _ Hw1) as [Hw2 Ht2]; [lia|lia|].
  split; [exact Hw2|]. rewrite Ht2, Ht1. lia.
Qed.

Lemma budget_nonneg (calls : list (input T * Z)) :
  positive_weights calls -> 0 <= budget calls.
Proof.
  unfold budget. induction 1 as [|[s w] calls Hw _ IH]; simpl in *; [lia|].
  nia.
Qed.

Lemma train_all_count (calls : list (input T * Z)) :
  positive_weights calls -> forall ch : chain T random,
  well_counted (transitions ch) ->
  table_count (transitions ch) + budget calls < Counter.modulus ->
  well_counted (transitions (train_all maybe_lt order calls ch)).
Proof.
  induction 1 as [|[s w] calls Hw Hp IH]; intros ch Hc Hs.
  - exact Hc.
  - pose proof (budget_nonneg calls Hp) as Hb.
    unfold budget in Hs, Hb. simpl in Hw, Hs. fold (budget calls) in Hs, Hb.
    unfold train_all. cbn [fold_left fst snd].
    destruct (train_count s w ch) as [Hw1 Ht1]; [lia|exact Hc|nia|].
    apply IH; [exact Hw1|]. rewrite Ht1. lia.
Qed.

(** C8, as amended: when the table is filled from empty by [train] calls
    with positive counts, and the increments asked for stay within the
    range of [counter], every transition stored has a positive total; and
    where that total is below [2^31] it is the modulus that the generator
    computes, which is then not zero. *)
Theorem trained_totals_positive (calls : list (input T * Z)) (g : random)
  (w : memory T) (d : transition T) :
  positive_weights calls ->
  budget calls < Counter.modulus ->
  find (memory_lt maybe_lt) w
    (transitions (train_all maybe_lt order calls (fresh g))) = Some d ->
  0 < total_count d /\
  (total_count d < Int.half ->
   accumulate d = total_count d /\ accumulate d <> 0).
Proof.
  intros Hp Hb Hf.
  assert (Hw : well_counted
                 (transitions (train_all maybe_lt order calls (fresh g)))).
  { apply train_all_count; [exact Hp|constructor|]. simpl.
    unfold table_count. simpl. lia. }
  apply find_In in Hf. destruct Hf as (k' & Hin & _).
  unfold well_counted in Hw. rewrite Forall_forall in Hw.
  destruct (Hw _ Hin) as [Ht Hn]. simpl in Ht, Hn.
  split; [exact Ht|]. intros Hh.
  rewrite (accumulate_exact d Hn Hh). split; [reflexivity|lia].
Qed.
End TrainerFacts.

(** * Training one sequence and generating from it *)

Section Reproduce.
Context {T random : Type}.
Variable maybe_lt : maybe T -> maybe T -> bool.
Variable order : nat.
Variable draw : random -> N * random.
Hypothesis maybe_order : key_order maybe_lt.

Lemma memory_order : key_order (memory_lt maybe_lt).
Proof. apply lex_key_order, maybe_order. Qed.

Lemma entries_windows (c : Z) (m : memory T) (inp : input T) :
  map fst (entries c m inp) = windows m inp.
Proof.
  revert m. induction inp as [|v inp IH]; intros m; simpl; [reflexivity|].
  now rewrite IH.
Qed.

Lemma bump_fresh (s : memory T) (k : maybe T) (c : Z) (tr : table T) :
  (forall kv, In kv tr -> equiv (memory_lt maybe_lt) s (fst kv) = false) ->
  Permutation (bump maybe_lt s k c tr) ((s, [(k, Counter.add 0 c)]) :: tr).
Proof. intros H. unfold bump. now rewrite subscript_fresh. Qed.

(** Along an input whose memories are pairwise different and new to the
    table, [train] adds one entry per memory. *)
Lemma fold_train_fresh (c : Z) (inp : input T) :
  forall (m : memory T) (tr : table T),
  NoDup (windows m inp) ->
  (forall w kv, In w (windows m inp) -> In kv tr ->
                equiv (memory_lt maybe_lt) w (fst kv) = false) ->
  let st := fold_left (train_fold maybe_lt c) inp (m, tr) in
  Permutation (bump maybe_lt (fst st) nothing 1 (snd st))
    (entries c m inp ++ tr).
Proof.
  induction inp as [|v inp IH]; intros m tr Hnd Hfr.
  - simpl. apply bump_fresh. intros kv Hin. apply Hfr; simpl; auto.
  - cbn [fold_left]. unfold train_fold at 2 4. cbn [fst snd].
    simpl in Hnd. apply NoDup_cons_iff in Hnd. destruct Hnd as [Hm Hnd].
    assert (Hb : Permutation (bump maybe_lt m (just v) c tr)
                   ((m, [(just v, Counter.add 0 c)]) :: tr)).
    { apply bump_fresh. intros kv Hin. apply Hfr; simpl; auto. }
    rewrite (IH (shift m v) _ Hnd).
    + rewrite Hb. simpl. symmetry. apply Permutation_middle.
    + intros w kv Hw Hin.
      apply (Permutation_in _ Hb) in Hin. destruct Hin as [<-|Hin].
      * simpl. apply equiv_neq; [exact memory_order|]. congruence.
      * apply Hfr; simpl; auto.
Qed.

Lemma train_fresh_entries (inp : input T) (c : Z) (g : random) :
  NoDup (windows (null_state order) inp) ->
  Permutation (transitions (train maybe_lt order inp c (fresh g)))
    (entries c (null_state order) inp).
Proof.
  intros Hnd. unfold train. cbn [transitions fresh].
  rewrite (fold_train_fresh c inp _ [] Hnd).
  - now rewrite app_nil_r.
  - intros w kv _ [].
Qed.

Lemma find_entries (tr e : table T) (w : memory T) (d : transition T) :
  Permutation tr e -> NoDup (map fst e) -> In (w, d) e ->
  find (memory_lt maybe_lt) w tr = Some d.
Proof.
  intros Hp Hnd Hin. apply find_unique.
  - exists w. split.
    + apply (Permutation_in _ (Permutation_sym Hp)), Hin.
    + apply equiv_refl, memory_order.
  - intros k' v' Hin' He.
    apply (equiv_eq _ _ _ memory_order) in He. subst k'.
    apply (Permutation_in _ Hp) in Hin'.
    clear Hp. induction e as [|[k1 v1] e IH]; [destruct Hin|].
    simpl in Hnd. apply NoDup_cons_iff in Hnd. destruct Hnd as [Hk Hnd].
    destruct Hin as [E|Hin], Hin' as [E'|Hin'].
    + congruence.
    + injection E as -> ->. exfalso. apply Hk.
      apply (in_map fst) in Hin'. exact Hin'.
    + injection E' as -> ->. exfalso. apply Hk.
      apply (in_map fst) in Hin. exact Hin.
    + now apply IH.
Qed.

(** A transition with the terminator alone ends the call, whatever is
    drawn. *)
Lemma iteration_stop (ch : chain T random) (rv : output T) (m : memory T)
  (n : Z) :
  0 < n < Int.half ->
  find (memory_lt maybe_lt) m (transitions ch) = Some [(nothing, n)] ->
  exists ch', iteration maybe_lt draw ch rv m = Done (Returned rv) ch'.
Proof.
  intros Hn Hf. unfold iteration. rewrite Hf.
  assert (Ha : accumulate (T:=T) [(nothing, n)] = n).
  { rewrite accumulate_exact; simpl; [lia| |lia].
    constructor; [simpl; lia|constructor]. }
  rewrite Ha. destruct (n =? 0) eqn:E; [apply Z.eqb_eq in E; lia|].
  unfold sample. simpl.
  pose proof (Z.mod_pos_bound (Z.of_N (fst (draw (RNG ch)))) n) as Hb.
  destruct (n <? Z.of_N (fst (draw (RNG ch))) mod n) eqn:F.
  - apply Z.ltb_lt in F. lia.
  - eexists. reflexivity.
Qed.

(** A transition with one symbol alone emits it, whatever is drawn. *)
Lemma iteration_emit (ch : chain T random) (rv : output T) (m : memory T)
  (v : T) (n : Z) :
  0 < n < Int.half ->
  find (memory_lt maybe_lt) m (transitions ch) = Some [(just v, n)] ->
  exists ch', iteration maybe_lt draw ch rv m = Next ch' (rv ++ [v]) (shift m v)
              /\ transitions ch' = transitions ch.
Proof.
  intros Hn Hf. unfold iteration. rewrite Hf.
  assert (Ha : accumulate (T:=T) [(just v, n)] = n).
  { rewrite accumulate_exact; simpl; [lia| |lia].
    constructor; [simpl; lia|constructor]. }
  rewrite Ha. destruct (n =? 0) eqn:E; [apply Z.eqb_eq in E; lia|].
  unfold sample. simpl.
  pose proof (Z.mod_pos_bound (Z.of_N (fst (draw (RNG ch)))) n) as Hb.
  destruct (n <? Z.of_N (fst (draw (RNG ch))) mod n) eqn:F.
  - apply Z.ltb_lt in F. lia.
  - eexists. split; reflexivity.
Qed.

Lemma loop_reproduce (c : Z) (inp : input T) :
  0 < c < Int.half ->
  forall (m : memory T) (rv : output T) (fuel : nat) (ch : chain T random),
  (forall w d, In (w, d) (entries c m inp) ->
               find (memory_lt maybe_lt) w (transitions ch) = Some d) ->
  (length inp < fuel)%nat ->
  fst (loop maybe_lt draw fuel ch rv m) = Returned (rv ++ inp).
Proof.
  intros Hc.
  assert (Hh : Int.half = 2 ^ 31) by reflexivity.
  assert (Hm : Counter.modulus = 2 ^ 64) by reflexivity.
  induction inp as [|v inp IH]; intros m rv fuel ch Hfind Hfuel;
    (destruct fuel as [|fuel]; [simpl in Hfuel; lia|]); cbn [loop].
  - destruct (iteration_stop ch rv m 1) as [ch' ->]; [lia| |].
    + apply Hfind. simpl. auto.
    + simpl. now rewrite app_nil_r.
  - destruct (iteration_emit ch rv m v c Hc) as (ch' & -> & Ht).
    + pose proof (Hfind m _ (or_introl eq_refl)) as Hhere.
      rewrite add_exact in Hhere by lia. exact Hhere.
    + rewrite IH.
      * now rewrite <- app_assoc.
      * intros w d Hin. rewrite Ht. apply Hfind. simpl. auto.
      * simpl in Hfuel. lia.
Qed.

(** A chain trained once on an input whose memories are pairwise
    different generates that input, whatever the random source draws. *)
Lemma generate_reproduces (inp : input T) (c : Z) (g : random) (fuel : nat) :
  0 < c < Int.half ->
  NoDup (windows (null_state order) inp) ->
  (length inp < fuel)%nat ->
  fst (generate maybe_lt order draw fuel (train maybe_lt order inp c (fresh g)))
  = Returned inp.
Proof.
  intros Hc Hnd Hfuel. unfold generate.
  rewrite (loop_reproduce c inp Hc); [reflexivity| |exact Hfuel].
  intros w d Hin.
  apply (find_entries _ (entries c (null_state order) inp)).
  - now apply train_fresh_entries.
  - now rewrite entries_windows.
  - exact Hin.
Qed.
End Reproduce.

(** C4: on an order 2 chain over [int], training [[1; 2; 3]] once with
    count 1 from empty fills the table with exactly the four entries
    [nothing,nothing] -> {1: 1}, [nothing,1] -> {2: 1}, [1,2] -> {3: 1}
    and [2,3] -> {terminator: 1}, whatever key order [maybe<int>] has, and the
    generator, run on a random source that always returns 0, then returns
    [[1; 2; 3]]. *)
Theorem order2_scenario (maybe_lt : maybe Z -> maybe Z -> bool)
  (random : Type) (draw : random -> N * random) (g : random) (fuel : nat) :
  key_order maybe_lt ->
  (forall s, fst (draw s) = 0%N) ->
  (4 <= fuel)%nat ->
  Permutation (transitions (train maybe_lt 2 [1; 2; 3] 1 (fresh g)))
    [([nothing; nothing], [(just 1, 1)]);
     ([nothing; just 1], [(just 2, 1)]);
     ([just 1; just 2], [(just 3, 1)]);
     ([just 2; just 3], [(nothing, 1)])] /\
  fst (generate maybe_lt 2 draw fuel (train maybe_lt 2 [1; 2; 3] 1 (fresh g)))
  = Returned [1; 2; 3].
Proof.
  intros Ho _ Hfuel.
  assert (Hnd : NoDup (windows (null_state 2) [1; 2; 3])).
  { unfold null_state. simpl.
    repeat (apply NoDup_cons; [simpl; intuition discriminate|]).
    apply NoDup_nil. }
  split.
  - exact (train_fresh_entries maybe_lt 2 Ho [1; 2; 3] 1 g Hnd).
  - apply generate_reproduces; [exact Ho|split; reflexivity|exact Hnd|].
    simpl. lia.
Qed.

(** C6, as amended: for three pairwise different symbols x, y, z, an
    order 1 chain trained once on [[x; y; z]] with count 1, run on a random
    source that always returns 0, returns exactly [[x; y; z]]. *)
Theorem order1_reproduces_distinct {T random : Type}
  (maybe_lt : maybe T -> maybe T -> bool) (draw : random -> N * random)
  (x y z : T) (g : random) (fuel : nat) :
  key_order maybe_lt ->
  (forall s, fst (draw s) = 0%N) ->
  x <> y -> y <> z -> x <> z ->
  (4 <= fuel)%nat ->
  fst (generate maybe_lt 1 draw fuel (train maybe_lt 1 [x; y; z] 1 (fresh g)))
  = Returned [x; y; z].
Proof.
  intros Ho _ Hxy Hyz Hxz Hfuel.
  apply generate_reproduces; [exact Ho|split; reflexivity| |simpl; lia].
  unfold null_state. simpl.
  repeat (apply NoDup_cons; [simpl; intuition congruence|]).
  apply NoDup_nil.
Qed.

(** * Training the empty sequence *)

Section EmptyInput.
Context {T random : Type}.
Variable maybe_lt : maybe T -> maybe T -> bool.
Variable order : nat.
Variable draw : random -> N * random.
Hypothesis nothing_irrefl : maybe_lt nothing nothing = false.

Lemma train_all_cons (call : input T * Z) (calls : list (input T * Z))
  (ch : chain T random) :
  train_all maybe_lt order (call :: calls) ch
  = train_all maybe_lt order calls
      (train maybe_lt order (fst call) (snd call) ch).
Proof. reflexivity. Qed.

Lemma null_state_irrefl :
  memory_lt maybe_lt (null_state order) (null_state order) = false.
Proof.
  apply lex_irrefl. intros a Ha. apply repeat_spec in Ha. now subst a.
Qed.

Lemma train_empty_again (c k : Z) (ch : chain T random) :
  transitions ch = [(null_state order, [(nothing, k)])] ->
  transitions (train maybe_lt order [] c ch)
  = [(null_state order, [(nothing, Counter.add k 1)])].
Proof.
  intros E. unfold train, bump. cbn [fold_left fst snd transitions].
  rewrite E. simpl. rewrite null_state_irrefl, nothing_irrefl. reflexivity.
Qed.


End EmptyInput.

(** * The chain over [int]: concrete runs *)

Lemma int_maybe_order : key_order IntChain.maybe_lt.
Proof.
  split.
  - intros [|x]; simpl; [reflexivity|apply Z.ltb_irrefl].
  - intros [|x] [|y]; simpl; try discriminate; [reflexivity|].
    intros H1 H2. apply Z.ltb_ge in H1, H2. f_equal. lia.
Defined.

(** C1 (the code departs from it): on an order 1 chain, training [[1]]
    twice with count 1 counts the terminator after [1] twice, training it
    once with count 2 counts it once; the two tables differ. *)
Theorem train_twice_differs_from_double_weight :
  transitions (IntChain.train1 [1] 1 (IntChain.train1 [1] 1 IntChain.empty))
  = [([nothing], [(just 1, 2)]); ([just 1], [(nothing, 2)])] /\
  transitions (IntChain.train1 [1] 2 IntChain.empty)
  = [([nothing], [(just 1, 2)]); ([just 1], [(nothing, 1)])] /\
  transitions (IntChain.train1 [1] 1 (IntChain.train1 [1] 1 IntChain.empty))
  <> transitions (IntChain.train1 [1] 2 IntChain.empty).
Proof.
  split; [reflexivity|split; [reflexivity|]]. vm_compute. discriminate.
Qed.

(** C2 (the code departs from it): training [[1]] with count 2 on an empty
    order 1 chain leaves the terminator after [1], absent before, at 1 and
    not at 2, while the symbol itself is counted twice. *)
Theorem train_counts_terminator_once :
  find (memory_lt IntChain.maybe_lt) [just 1] (transitions IntChain.empty)
  = None /\
  find (memory_lt IntChain.maybe_lt) [just 1]
    (transitions (IntChain.train1 [1] 2 IntChain.empty))
  = Some [(nothing, 1)] /\
  find (memory_lt IntChain.maybe_lt) [nothing]
    (transitions (IntChain.train1 [1] 2 IntChain.empty))
  = Some [(just 1, 2)].
Proof. repeat split. Qed.

(** C3 (the code departs from it): with the remainder equal to the count
    of an entry, the scan of the code takes that entry, where the scan of
    the specification goes on to the next; so a chain trained on [[1]] and
    on [[2]] that draws 1 generates [[1]], the same as when it draws 0. *)
Theorem scan_takes_entry_at_equal_count :
  scan [(just 1, 1); (just 2, 1)] 1 = Emit 1 /\
  scan_spec [(just 1, 1); (just 2, 1)] 1 = Emit 2 /\
  (forall (T : Type) (x : T) (n : Z) (d : transition T),
      scan ((just x, n) :: d) n = Emit x) /\
  transitions (IntChain.train1 [2] 1 (IntChain.train1 [1] 1 IntChain.empty))
  = [([nothing], [(just 1, 1); (just 2, 1)]);
     ([just 1], [(nothing, 1)]); ([just 2], [(nothing, 1)])] /\
  fst (IntChain.generate1 (IntChain.constant 1) 2
         (IntChain.train1 [2] 1 (IntChain.train1 [1] 1 IntChain.empty)))
  = Returned [1] /\
  fst (IntChain.generate1 (IntChain.constant 0) 2
         (IntChain.train1 [2] 1 (IntChain.train1 [1] 1 IntChain.empty)))
  = Returned [1].
Proof.
  repeat split. intros T x n d. simpl. now rewrite Z.ltb_irrefl.
Qed.

Lemma order2_scenario_witness :
  Permutation
    (transitions (train IntChain.maybe_lt 2 [1; 2; 3] 1 (fresh tt)))
    [([nothing; nothing], [(just 1, 1)]);
     ([nothing; just 1], [(just 2, 1)]);
     ([just 1; just 2], [(just 3, 1)]);
     ([just 2; just 3], [(nothing, 1)])] /\
  fst (generate IntChain.maybe_lt 2 (IntChain.constant 0) 4
         (train IntChain.maybe_lt 2 [1; 2; 3] 1 (fresh tt)))
  = Returned [1; 2; 3].
Proof.
  apply (order2_scenario IntChain.maybe_lt unit (IntChain.constant 0) tt 4).
  - exact int_maybe_order.
  - reflexivity.
  - lia.
Defined.

(** C6 as stated fails: trained on [[7; 7; 7]], the order 1 chain holds
    both [7] and the terminator as successors of [7], and with zero drawn it
    takes the first of them in key order, the terminator: it returns [[7]]. *)
Lemma repeated_symbol_not_reproduced :
  ~ (forall x y z : Z, exists fuel : nat,
        fst (IntChain.generate1 (IntChain.constant 0) fuel
               (IntChain.train1 [x; y; z] 1 IntChain.empty))
        = Returned [x; y; z]).
Proof.
  intros H. destruct (H 7 7 7) as [fuel Hf].
  destruct fuel as [|[|fuel]]; vm_compute in Hf; discriminate.
Qed.

Lemma repeated_symbol_loop (fuel : nat) (rv : output Z) :
  fst (loop IntChain.maybe_lt_last (IntChain.constant 0) fuel
         (train IntChain.maybe_lt_last 1 [7; 7; 7] 1 (fresh tt)) rv [just 7])
  = OutOfFuel.
Proof.
  revert rv. induction fuel as [|fuel IH]; intros rv; [reflexivity|].
  cbn [loop].
  change (iteration IntChain.maybe_lt_last (IntChain.constant 0)
            (train IntChain.maybe_lt_last 1 [7; 7; 7] 1 (fresh tt)) rv
            [just 7])
    with (Next (train IntChain.maybe_lt_last 1 [7; 7; 7] 1 (fresh tt))
            (rv ++ [7]) [just 7]).
  apply IH.
Qed.

(** With the other key order, in which the terminator comes last, the same
    chain takes [7] for ever: no amount of fuel lets the call return. *)
Lemma repeated_symbol_runs_on (fuel : nat) :
  fst (generate IntChain.maybe_lt_last 1 (IntChain.constant 0) fuel
         (train IntChain.maybe_lt_last 1 [7; 7; 7] 1 (fresh tt)))
  = OutOfFuel.
Proof.
  destruct fuel as [|fuel]; [reflexivity|].
  unfold generate. cbn [loop].
  change (iteration IntChain.maybe_lt_last (IntChain.constant 0)
            (train IntChain.maybe_lt_last 1 [7; 7; 7] 1 (fresh tt)) []
            (null_state 1))
    with (Next (train IntChain.maybe_lt_last 1 [7; 7; 7] 1 (fresh tt))
            [7] [just 7]).
  apply repeated_symbol_loop.
Qed.

Lemma order1_reproduces_distinct_witness :
  fst (generate IntChain.maybe_lt 1 (IntChain.constant 0) 4
         (train IntChain.maybe_lt 1 [1; 2; 3] 1 (fresh tt)))
  = Returned [1; 2; 3].
Proof.
  apply (order1_reproduces_distinct IntChain.maybe_lt (IntChain.constant 0)
           1 2 3 tt 4).
  - exact int_maybe_order.
  - reflexivity.
  - discriminate.
  - discriminate.
  - discriminate.
  - lia.
Defined.

(** C8 as stated fails, in both of its parts.  Two [train] calls with the
    positive count [2^63] wrap the 64-bit counter of the symbol round to 0:
    the transition stored has total 0.  And one call with the positive count
    [2^32] stores a transition whose total is [2^32], which the [int]
    accumulator of the generator reduces to 0, the modulus of [RNG() % c]. *)
Lemma trained_total_can_vanish :
  ~ (forall (calls : list (input Z * Z)) (w : memory Z) (d : transition Z),
        positive_weights calls ->
        find (memory_lt IntChain.maybe_lt) w
          (transitions (train_all IntChain.maybe_lt 1 calls IntChain.empty))
        = Some d ->
        0 < total_count d) /\
  ~ (forall (calls : list (input Z * Z)) (w : memory Z) (d : transition Z),
        positive_weights calls ->
        find (memory_lt IntChain.maybe_lt) w
          (transitions (train_all IntChain.maybe_lt 1 calls IntChain.empty))
        = Some d ->
        accumulate d <> 0).
Proof.
  split; intros H.
  - assert (Hz : 0 < total_count [(@just Z 5, 0)]); [|discriminate Hz].
    apply (H [([5], 2 ^ 63); ([5], 2 ^ 63)] [nothing]).
    + repeat constructor.
    + reflexivity.
  - apply (H [([5], 2 ^ 32)] [nothing] [(just 5, 2 ^ 32)]).
    + repeat constructor.
    + reflexivity.
    + reflexivity.
Qed.

Lemma trained_totals_positive_witness :
  0 < total_count [(@just Z 1, 1)] /\
  (total_count [(@just Z 1, 1)] < Int.half ->
   accumulate [(@just Z 1, 1)] = total_count [(@just Z 1, 1)] /\
   accumulate [(@just Z 1, 1)] <> 0).
Proof.
  apply (trained_totals_positive IntChain.maybe_lt 1 [([1; 2; 3], 1)] tt
           [nothing] [(just 1, 1)]).
  - constructor; [|constructor]. simpl. split; reflexivity.
  - reflexivity.
  - reflexivity.
Defined.




(** * Further properties *)

(** ** Association lists in key order *)

Lemma equiv_sym {K : Type} (lt : K -> K -> bool) (a b : K) :
  equiv lt a b = equiv lt b a.
Proof. unfold equiv. apply andb_comm. Qed.

Section SortedFacts.
Context {K V : Type}.
Variable lt : K -> K -> bool.
Hypothesis Hso : strict_order lt.

Lemma lt_asym (a b : K) : lt a b = true -> lt b a = false.
Proof.
  intros H. destruct (lt b a) eqn:E; [|reflexivity].
  rewrite <- (lt_irrefl lt (so_keys lt Hso) a). symmetry.
  now apply (so_trans lt Hso a b a).
Qed.

Lemma equiv_lt_false (a b : K) : lt a b = true -> equiv lt a b = false.
Proof. intros H. unfold equiv. now rewrite H. Qed.

Lemma subscript_keys_Forall (P : K -> Prop) (k : K) (d : V) (f : V -> V)
  (m : list (K * V)) :
  P k -> Forall (fun e => P (fst e)) m ->
  Forall (fun e => P (fst e)) (subscript lt k d f m).
Proof.
  intros Hk. induction 1 as [|[k1 v1] m H1 Hm IH]; simpl.
  - constructor; [exact Hk|constructor].
  - destruct (lt k k1); [constructor; [exact Hk|constructor; assumption]|].
    destruct (lt k1 k); constructor; assumption.
Qed.

Lemma subscript_values_Forall (Q : V -> Prop) (k : K) (d : V) (f : V -> V)
  (m : list (K * V)) :
  Q d -> (forall v, Q v -> Q (f v)) -> Forall (fun e => Q (snd e)) m ->
  Forall (fun e => Q (snd e)) (subscript lt k d f m).
Proof.
  intros Hd Hf. induction 1 as [|[k1 v1] m H1 Hm IH]; simpl.
  - constructor; [apply Hf, Hd|constructor].
  - destruct (lt k k1);
      [constructor; [apply Hf, Hd|constructor; assumption]|].
    destruct (lt k1 k); constructor; simpl in *; auto.
Qed.

(** [operator[]] keeps the map in key order. *)
Lemma subscript_ascending (k : K) (d : V) (f : V -> V) (m : list (K * V)) :
  ascending lt m -> ascending lt (subscript lt k d f m).
Proof.
  induction m as [|[k1 v1] m IH]; simpl; intros Ha.
  - split; [constructor|exact I].
  - destruct Ha as [H1 Hm]. destruct (lt k k1) eqn:E1.
    + simpl. split; [|split; assumption].
      constructor; [exact E1|].
      eapply Forall_impl; [|exact H1]. intros e He. simpl in *.
      now apply (so_trans lt Hso k k1 (fst e)).
    + destruct (lt k1 k) eqn:E2; simpl.
      * split; [|now apply IH].
        apply (subscript_keys_Forall (fun x => lt k1 x = true)); assumption.
      * split; assumption.
Qed.

Lemma ascending_find_above (k k' : K) (v v' : V) (m : list (K * V)) :
  ascending lt ((k, v) :: m) -> find lt k' m = Some v' -> lt k k' = true.
Proof.
  intros [H1 _] Hf. apply find_In in Hf. destruct Hf as (k2 & Hin & He).
  apply (equiv_eq _ _ _ (so_keys lt Hso)) in He. subst k2.
  rewrite Forall_forall in H1. exact (H1 _ Hin).
Qed.

Lemma ascending_find_below (k k' : K) (v : V) (m : list (K * V)) :
  ascending lt ((k, v) :: m) -> lt k k' = false -> find lt k' m = None.
Proof.
  intros Ha Hlt. destruct (find lt k' m) as [v'|] eqn:E; [|reflexivity].
  rewrite (ascending_find_above k k' v v' m Ha E) in Hlt. discriminate.
Qed.

(** What [m[k]] reads: the value under [k], or the default. *)
Lemma find_subscript_same (k : K) (d : V) (f : V -> V) (m : list (K * V)) :
  ascending lt m ->
  find lt k (subscript lt k d f m)
  = Some (f (match find lt k m with Some v => v | None => d end)).
Proof.
  pose proof (lt_irrefl lt (so_keys lt Hso) k) as Hkk.
  induction m as [|[k1 v1] m IH]; simpl; intros Ha.
  - now rewrite (equiv_refl lt k Hkk).
  - destruct (lt k k1) eqn:E1.
    + simpl. rewrite (equiv_refl lt k Hkk), (equiv_lt_false k k1 E1).
      now rewrite (ascending_find_below k1 k v1 m Ha (lt_asym k k1 E1)).
    + destruct (lt k1 k) eqn:E2; simpl.
      * assert (Eq : equiv lt k k1 = false)
          by (unfold equiv; now rewrite E1, E2).
        rewrite Eq. apply IH, Ha.
      * assert (Eq : equiv lt k k1 = true)
          by (unfold equiv; now rewrite E1, E2).
        now rewrite Eq.
Qed.

Lemma find_subscript_other (k k' : K) (d : V) (f : V -> V) (m : list (K * V)) :
  equiv lt k k' = false ->
  find lt k' (subscript lt k d f m) = find lt k' m.
Proof.
  intros Hne. rewrite equiv_sym in Hne.
  induction m as [|[k1 v1] m IH]; simpl.
  - now rewrite Hne.
  - destruct (lt k k1) eqn:E1; [simpl; now rewrite Hne|].
    destruct (lt k1 k) eqn:E2; simpl.
    + now rewrite IH.
    + assert (k = k1) by (apply (lt_total lt (so_keys lt Hso)); assumption).
      subst k1. now rewrite Hne.
Qed.

(** Two maps in key order that answer every lookup alike are the same. *)
Lemma ascending_ext (m1 m2 : list (K * V)) :
  ascending lt m1 -> ascending lt m2 ->
  (forall k, find lt k m1 = find lt k m2) -> m1 = m2.
Proof.
  pose proof (lt_irrefl lt (so_keys lt Hso)) as Hirr.
  revert m2. induction m1 as [|[k1 v1] m1 IH]; intros [|[k2 v2] m2] H1 H2 He.
  - reflexivity.
  - specialize (He k2). simpl in He. rewrite (equiv_refl lt k2 (Hirr k2)) in He.
    discriminate.
  - specialize (He k1). simpl in He. rewrite (equiv_refl lt k1 (Hirr k1)) in He.
    discriminate.
  - assert (Hk : k1 = k2).
    { apply (lt_total lt (so_keys lt Hso)).
      - destruct (lt k1 k2) eqn:E; [|reflexivity].
        pose proof (He k1) as H. simpl in H.
        rewrite (equiv_refl lt k1 (Hirr k1)), (equiv_lt_false k1 k2 E) in H.
        rewrite (ascending_find_below k2 k1 v2 m2 H2 (lt_asym k1 k2 E)) in H.
        discriminate.
      - destruct (lt k2 k1) eqn:E; [|reflexivity].
        pose proof (He k2) as H. simpl in H.
        rewrite (equiv_refl lt k2 (Hirr k2)), (equiv_lt_false k2 k1 E) in H.
        rewrite (ascending_find_below k1 k2 v1 m1 H1 (lt_asym k2 k1 E)) in H.
        discriminate. }
    subst k2.
    assert (Hv : v1 = v2).
    { pose proof (He k1) as H. simpl in H.
      rewrite (equiv_refl lt k1 (Hirr k1)) in H. congruence. }
    subst v2. f_equal. apply IH; [apply H1|apply H2|].
    intros k. pose proof (He k) as H. simpl in H.
    destruct (equiv lt k k1) eqn:E; [|exact H].
    apply (equiv_eq _ _ _ (so_keys lt Hso)) in E. subst k.
    rewrite (ascending_find_below k1 k1 v1 m1 H1 (Hirr k1)).
    now rewrite (ascending_find_below k1 k1 v1 m2 H2 (Hirr k1)).
Qed.

(** Two [operator[]] updates can be made in either order, when their
    effects on a value can. *)
Lemma subscript_comm (k1 k2 : K) (d : V) (f g : V -> V) (m : list (K * V)) :
  ascending lt m ->
  (forall x, x = d \/ In x (map snd m) -> f (g x) = g (f x)) ->
  subscript lt k1 d f (subscript lt k2 d g m)
  = subscript lt k2 d g (subscript lt k1 d f m).
Proof.
  intros Ha Hc.
  assert (Hval : forall k, (match find lt k m with Some v => v | None => d end) = d
                 \/ In (match find lt k m with Some v => v | None => d end)
                      (map snd m)).
  { intros k. destruct (find lt k m) as [v|] eqn:E; [right|now left].
    apply find_In in E. destruct E as (k' & Hin & _).
    apply (in_map snd) in Hin. exact Hin. }
  apply ascending_ext; try (do 2 apply subscript_ascending; exact Ha).
  intros k.
  destruct (equiv lt k1 k2) eqn:E12.
  - apply (equiv_eq _ _ _ (so_keys lt Hso)) in E12. subst k2.
    destruct (equiv lt k1 k) eqn:E.
    + apply (equiv_eq _ _ _ (so_keys lt Hso)) in E. subst k.
      rewrite !find_subscript_same by (try apply subscript_ascending; exact Ha).
      f_equal. apply Hc, Hval.
    + now rewrite !find_subscript_other by exact E.
  - destruct (equiv lt k1 k) eqn:E1.
    + apply (equiv_eq _ _ _ (so_keys lt Hso)) in E1. subst k.
      rewrite find_subscript_same by (apply subscript_ascending; exact Ha).
      rewrite (find_subscript_other k2 k1) by (now rewrite equiv_sym).
      rewrite (find_subscript_other k2 k1) by (now rewrite equiv_sym).
      now rewrite find_subscript_same by exact Ha.
    + rewrite (find_subscript_other k1 k) by exact E1.
      destruct (equiv lt k2 k) eqn:E2.
      * apply (equiv_eq _ _ _ (so_keys lt Hso)) in E2. subst k.
        rewrite !find_subscript_same by (try apply subscript_ascending; exact Ha).
        now rewrite (find_subscript_other k1 k2) by exact E12.
      * now rewrite !find_subscript_other by assumption.
Qed.
End SortedFacts.

Lemma lex_trans {A : Type} (lt : A -> A -> bool) :
  strict_order lt ->
  forall a b c : list A,
    lexicographical_compare lt a b = true ->
    lexicographical_compare lt b c = true ->
    lexicographical_compare lt a c = true.
Proof.
  intros Hso.
  pose proof (lt_irrefl lt (so_keys lt Hso)) as Hirr.
  pose proof (lt_total lt (so_keys lt Hso)) as Htot.
  induction a as [|x a IH]; intros [|y b] [|z c]; simpl; try discriminate;
    try reflexivity.
  destruct (lt x y) eqn:Exy.
  - intros _. destruct (lt y z) eqn:Eyz.
    + intros _. now rewrite (so_trans lt Hso x y z Exy Eyz).
    + destruct (lt z y) eqn:Ezy; [discriminate|].
      rewrite <- (Htot y z Eyz Ezy). now rewrite Exy.
  - destruct (lt y x) eqn:Eyx; [discriminate|].
    rewrite (Htot x y Exy Eyx). intros Hab.
    destruct (lt y z) eqn:Eyz; [reflexivity|].
    destruct (lt z y) eqn:Ezy; [discriminate|]. now apply IH.
Qed.

Lemma lex_strict_order {A : Type} (lt : A -> A -> bool) :
  strict_order lt -> strict_order (lexicographical_compare lt).
Proof.
  intros Hso. split.
  - apply lex_key_order, Hso.
  - now apply lex_trans.
Qed.

(** ** The table under [train] *)

Section TableFacts.
Context {T : Type}.
Variable maybe_lt : maybe T -> maybe T -> bool.
Hypothesis Hso : strict_order maybe_lt.

Lemma memory_strict_order : strict_order (memory_lt maybe_lt).
Proof. apply lex_strict_order, Hso. Qed.

Lemma table_sorted_find (tr : table T) (w : memory T) (d : transition T) :
  table_sorted maybe_lt tr -> find (memory_lt maybe_lt) w tr = Some d ->
  ascending maybe_lt d.
Proof.
  intros [_ Hv] Hf. apply find_In in Hf. destruct Hf as (k & Hin & _).
  rewrite Forall_forall in Hv. exact (Hv _ Hin).
Qed.

Lemma bump_sorted (s : memory T) (k : maybe T) (c : Z) (tr : table T) :
  table_sorted maybe_lt tr -> table_sorted maybe_lt (bump maybe_lt s k c tr).
Proof.
  intros [Hk Hv]. unfold bump. split.
  - apply subscript_ascending; [exact memory_strict_order|exact Hk].
  - apply (subscript_values_Forall _ (ascending maybe_lt)).
    + exact I.
    + intros d Hd. now apply subscript_ascending.
    + exact Hv.
Qed.

(** What [transitions[s][k] += c] does to the counters: the one of [k]
    after [s] grows by [c], modulo [2^64], the others stay. *)
Lemma count_of_bump (s w : memory T) (k k' : maybe T) (c : Z) (tr : table T) :
  table_sorted maybe_lt tr ->
  count_of maybe_lt (bump maybe_lt s k c tr) w k'
  = if equiv (memory_lt maybe_lt) w s && equiv maybe_lt k' k
    then Counter.add (count_of maybe_lt tr w k') c
    else count_of maybe_lt tr w k'.
Proof.
  intros Hs. unfold count_of, bump.
  destruct (equiv (memory_lt maybe_lt) w s) eqn:Ew; simpl.
  - apply (equiv_eq _ _ _ (so_keys _ memory_strict_order)) in Ew. subst w.
    rewrite (find_subscript_same _ memory_strict_order) by apply Hs.
    assert (Hd : ascending maybe_lt
                   match find (memory_lt maybe_lt) s tr with
                   | Some v => v
                   | None => []
                   end).
    { destruct (find (memory_lt maybe_lt) s tr) eqn:E; [|exact I].
      now apply (table_sorted_find tr s). }
    destruct (equiv maybe_lt k' k) eqn:Ek.
    + apply (equiv_eq _ _ _ (so_keys _ Hso)) in Ek. subst k'.
      rewrite (find_subscript_same _ Hso) by exact Hd.
      now destruct (find (memory_lt maybe_lt) s tr).
    + rewrite (find_subscript_other _ Hso) by (now rewrite equiv_sym).
      now destruct (find (memory_lt maybe_lt) s tr).
  - rewrite (find_subscript_other _ memory_strict_order)
      by (now rewrite equiv_sym).
    reflexivity.
Qed.

Lemma add_comm_counts (x c1 c2 : Z) :
  Counter.add (Counter.add x c2) c1 = Counter.add (Counter.add x c1) c2.
Proof.
  unfold Counter.add, Counter.wrap.
  rewrite !Z.add_mod_idemp_l by discriminate. f_equal. lia.
Qed.

(** Two increments can be made in either order. *)
Lemma bump_comm (s1 s2 : memory T) (k1 k2 : maybe T) (c1 c2 : Z)
  (tr : table T) :
  table_sorted maybe_lt tr ->
  bump maybe_lt s1 k1 c1 (bump maybe_lt s2 k2 c2 tr)
  = bump maybe_lt s2 k2 c2 (bump maybe_lt s1 k1 c1 tr).
Proof.
  intros [Hk Hv]. unfold bump.
  apply (subscript_comm _ memory_strict_order); [exact Hk|].
  intros d Hd.
  assert (Ha : ascending maybe_lt d).
  { destruct Hd as [->|Hin]; [exact I|].
    apply in_map_iff in Hin. destruct Hin as (e & <- & Hin).
    rewrite Forall_forall in Hv. exact (Hv _ Hin). }
  apply (subscript_comm _ Hso); [exact Ha|].
  intros x _. apply add_comm_counts.
Qed.

Lemma apply_steps_sorted (l : list (memory T * maybe T * Z)) (tr : table T) :
  table_sorted maybe_lt tr -> table_sorted maybe_lt (apply_steps maybe_lt l tr).
Proof.
  revert tr. induction l as [|[[s k] c] l IH]; intros tr Hs; [exact Hs|].
  simpl. apply IH. now apply bump_sorted.
Qed.

Lemma bump_apply_steps (s : memory T) (k : maybe T) (c : Z)
  (l : list (memory T * maybe T * Z)) (tr : table T) :
  table_sorted maybe_lt tr ->
  bump maybe_lt s k c (apply_steps maybe_lt l tr)
  = apply_steps maybe_lt l (bump maybe_lt s k c tr).
Proof.
  revert tr. induction l as [|[[s1 k1] c1] l IH]; intros tr Hs; [reflexivity|].
  simpl. rewrite IH by now apply bump_sorted.
  f_equal. now apply bump_comm.
Qed.

Lemma apply_steps_comm (l1 l2 : list (memory T * maybe T * Z)) (tr : table T) :
  table_sorted maybe_lt tr ->
  apply_steps maybe_lt l1 (apply_steps maybe_lt l2 tr)
  = apply_steps maybe_lt l2 (apply_steps maybe_lt l1 tr).
Proof.
  revert tr. induction l1 as [|[[s k] c] l1 IH]; intros tr Hs; [reflexivity|].
  simpl. rewrite <- IH by now apply bump_sorted.
  f_equal. now apply bump_apply_steps.
Qed.

Lemma fold_steps (c : Z) (inp : input T) (m : memory T) (tr : table T) :
  bump maybe_lt (fst (fold_left (train_fold maybe_lt c) inp (m, tr))) nothing 1
    (snd (fold_left (train_fold maybe_lt c) inp (m, tr)))
  = apply_steps maybe_lt (steps c m inp) tr.
Proof.
  revert m tr. induction inp as [|v inp IH]; intros m tr; [reflexivity|].
  cbn [fold_left steps]. unfold train_fold at 2 4. cbn [fst snd].
  now rewrite IH.
Qed.
End TableFacts.

Lemma ascending_NoDup {K V : Type} (lt : K -> K -> bool) (m : list (K * V)) :
  (forall a, lt a a = false) -> ascending lt m -> NoDup (map fst m).
Proof.
  intros Hirr. induction m as [|[k v] m IH]; simpl; intros Ha.
  - constructor.
  - destruct Ha as [H1 Hm]. constructor; [|now apply IH].
    intros Hin. apply in_map_iff in Hin. destruct Hin as (e & He & Hin).
    rewrite Forall_forall in H1. specialize (H1 _ Hin). simpl in *.
    rewrite He, Hirr in H1. discriminate.
Qed.

Section TrainLaws.
Context {T random : Type}.
Variable maybe_lt : maybe T -> maybe T -> bool.
Variable order : nat.
Hypothesis Hso : strict_order maybe_lt.

Lemma train_steps (inp : input T) (c : Z) (ch : chain T random) :
  transitions (train maybe_lt order inp c ch)
  = apply_steps maybe_lt (steps c (null_state order) inp) (transitions ch).
Proof. unfold train. cbn [transitions]. apply fold_steps. Qed.

Lemma train_sorted (inp : input T) (c : Z) (ch : chain T random) :
  table_sorted maybe_lt (transitions ch) ->
  table_sorted maybe_lt (transitions (train maybe_lt order inp c ch)).
Proof. intros Hs. rewrite train_steps. now apply apply_steps_sorted. Qed.

Lemma train_all_sorted (calls : list (input T * Z)) (ch : chain T random) :
  table_sorted maybe_lt (transitions ch) ->
  table_sorted maybe_lt (transitions (train_all maybe_lt order calls ch)).
Proof.
  revert ch. induction calls as [|[inp c] calls IH]; intros ch Hs; [exact Hs|].
  rewrite train_all_cons. apply IH. now apply train_sorted.
Qed.

(** X1: whatever is trained, the table stays a [std::map] in good order:
    windows ascend strictly in the lexicographic key order, so that no
    window has two entries, and so do the successors within each
    transition. *)
Theorem trained_table_in_key_order (calls : list (input T * Z)) (g : random) :
  let tr := transitions (train_all maybe_lt order calls (fresh g)) in
  table_sorted maybe_lt tr /\
  NoDup (map fst tr) /\
  Forall (fun e => NoDup (map fst (snd e))) tr.
Proof.
  intros tr.
  assert (Hs : table_sorted maybe_lt tr).
  { apply train_all_sorted. split; [exact I|constructor]. }
  split; [exact Hs|]. destruct Hs as [Hk Hv]. split.
  - apply (ascending_NoDup (memory_lt maybe_lt)); [|exact Hk].
    apply (lt_irrefl _ (so_keys _ (memory_strict_order maybe_lt Hso))).
  - eapply Forall_impl; [|exact Hv]. intros e He.
    apply (ascending_NoDup maybe_lt); [|exact He].
    apply (lt_irrefl _ (so_keys _ Hso)).
Qed.

Lemma train_commutes_aux (a b : input T) (ca cb : Z) (ch : chain T random) :
  table_sorted maybe_lt (transitions ch) ->
  train maybe_lt order a ca (train maybe_lt order b cb ch)
  = train maybe_lt order b cb (train maybe_lt order a ca ch).
Proof.
  intros Hs.
  assert (E : transitions (train maybe_lt order a ca (train maybe_lt order b cb ch))
              = transitions (train maybe_lt order b cb
                               (train maybe_lt order a ca ch))).
  { rewrite !train_steps. now apply apply_steps_comm. }
  unfold train in *. cbn [transitions RNG] in *. now rewrite E.
Qed.

(** X2: two [train] calls can be made in either order: the chain is the
    same afterwards. *)
Theorem train_commutes (a b : input T) (ca cb : Z) (ch : chain T random) :
  table_sorted maybe_lt (transitions ch) ->
  train maybe_lt order a ca (train maybe_lt order b cb ch)
  = train maybe_lt order b cb (train maybe_lt order a ca ch).
Proof. apply train_commutes_aux. Qed.

Lemma train_all_perm (calls calls' : list (input T * Z)) :
  Permutation calls calls' ->
  forall ch : chain T random,
  table_sorted maybe_lt (transitions ch) ->
  train_all maybe_lt order calls ch = train_all maybe_lt order calls' ch.
Proof.
  induction 1 as [|x l l' _ IH|x y l|l l' l'' _ IH1 _ IH2]; intros ch Hs.
  - reflexivity.
  - rewrite !train_all_cons. apply IH. now apply train_sorted.
  - rewrite !train_all_cons. f_equal. now apply train_commutes_aux.
  - rewrite IH1 by exact Hs. now apply IH2.
Qed.

(** X3: a series of [train] calls gives the same chain in whatever order
    the calls are made. *)
Theorem train_all_any_order (calls calls' : list (input T * Z))
  (ch : chain T random) :
  Permutation calls calls' ->
  table_sorted maybe_lt (transitions ch) ->
  train_all maybe_lt order calls ch = train_all maybe_lt order calls' ch.
Proof. intros Hp Hs. now apply train_all_perm. Qed.

Lemma chain_of_inputs_train_all (pRNG : random) (pData : list (input T)) :
  chain_of_inputs maybe_lt order pRNG pData
  = train_all maybe_lt order (map (fun d => (d, 1)) pData) (fresh pRNG).
Proof.
  unfold chain_of_inputs, train_all, shl_input.
  generalize (fresh (T:=T) pRNG) as ch.
  induction pData as [|d l IH]; intros ch; [reflexivity|]. simpl. apply IH.
Qed.

(** X4: the constructor that takes a data array builds the same chain from
    any rearrangement of the array, be it an array of inputs or of tuples of
    an input and a count; and an input fed to [operator<<] counts as the
    tuple of that input and 1. *)
Theorem chain_of_data_any_order :
  (forall (pRNG : random) (pData pData' : list (input T)),
      Permutation pData pData' ->
      chain_of_inputs maybe_lt order pRNG pData
      = chain_of_inputs maybe_lt order pRNG pData') /\
  (forall (pRNG : random) (pData pData' : list (input T * Z)),
      Permutation pData pData' ->
      chain_of_tuples maybe_lt order pRNG pData
      = chain_of_tuples maybe_lt order pRNG pData') /\
  (forall (pRNG : random) (pData : list (input T)),
      chain_of_inputs maybe_lt order pRNG pData
      = chain_of_tuples maybe_lt order pRNG (map (fun d => (d, 1)) pData)).
Proof.
  split; [|split].
  - intros pRNG pData pData' Hp.
    rewrite !chain_of_inputs_train_all. apply train_all_perm.
    + now apply Permutation_map.
    + split; [exact I|constructor].
  - intros pRNG pData pData' Hp.
    apply (train_all_perm pData pData' Hp (fresh pRNG)).
    split; [exact I|constructor].
  - intros pRNG pData. apply chain_of_inputs_train_all.
Qed.
End TrainLaws.

(** ** The counters after [train] *)

Section CountLaws.
Context {T random : Type}.
Variable maybe_lt : maybe T -> maybe T -> bool.
Variable order : nat.
Hypothesis Hso : strict_order maybe_lt.

Lemma occurrences_nonneg (w : memory T) (k : maybe T) (m : memory T)
  (inp : input T) :
  0 <= occurrences maybe_lt w k m inp.
Proof.
  revert m. induction inp as [|v inp IH]; intros m; simpl; [lia|].
  specialize (IH (shift m v)).
  destruct (equiv _ w m && equiv maybe_lt k (just v)); lia.
Qed.

Lemma fold_final (c : Z) (inp : input T) (m : memory T) (tr : table T) :
  fst (fold_left (train_fold maybe_lt c) inp (m, tr)) = final_memory m inp.
Proof.
  revert m tr. induction inp as [|v inp IH]; intros m tr; [reflexivity|].
  cbn [fold_left]. unfold train_fold at 2. cbn [fst snd]. apply IH.
Qed.

Lemma wrap_add_l (x y : Z) :
  Counter.wrap (Counter.wrap x + y) = Counter.wrap (x + y).
Proof. unfold Counter.wrap. now rewrite Z.add_mod_idemp_l by discriminate. Qed.

Lemma fold_count_of (c : Z) (inp : input T) :
  forall (m : memory T) (tr : table T),
  table_sorted maybe_lt tr ->
  table_sorted maybe_lt (snd (fold_left (train_fold maybe_lt c) inp (m, tr))) /\
  forall w k,
    count_of maybe_lt (snd (fold_left (train_fold maybe_lt c) inp (m, tr))) w k
    = if occurrences maybe_lt w k m inp =? 0
      then count_of maybe_lt tr w k
      else Counter.wrap (count_of maybe_lt tr w k
                         + c * occurrences maybe_lt w k m inp).
Proof.
  induction inp as [|v inp IH]; intros m tr Hs.
  - simpl. split; [exact Hs|reflexivity].
  - cbn [fold_left]. unfold train_fold at 2 4. cbn [fst snd].
    destruct (IH (shift m v) (bump maybe_lt m (just v) c tr)) as [Hs' Hc];
      [now apply bump_sorted|].
    split; [exact Hs'|]. intros w k. rewrite Hc.
    rewrite (count_of_bump maybe_lt Hso) by exact Hs. cbn [occurrences].
    pose proof (occurrences_nonneg w k (shift m v) inp) as Hn.
    destruct (equiv (memory_lt maybe_lt) w m && equiv maybe_lt k (just v)).
    + destruct (occurrences maybe_lt w k (shift m v) inp =? 0) eqn:E.
      * apply Z.eqb_eq in E. rewrite E. simpl. unfold Counter.add.
        f_equal. lia.
      * destruct (1 + occurrences maybe_lt w k (shift m v) inp =? 0) eqn:F;
          [apply Z.eqb_eq in F; lia|].
        unfold Counter.add. rewrite wrap_add_l. f_equal. lia.
    + now rewrite Z.add_0_l.
Qed.

Lemma train_count_formula (inp : input T) (c : Z) (ch : chain T random)
  (w : memory T) (k : maybe T) :
  table_sorted maybe_lt (transitions ch) ->
  count_of maybe_lt (transitions (train maybe_lt order inp c ch)) w k
  = let hits := occurrences maybe_lt w k (null_state order) inp in
    let last := ends_with maybe_lt w k (null_state order) inp in
    if hits + last =? 0
    then count_of maybe_lt (transitions ch) w k
    else Counter.wrap (count_of maybe_lt (transitions ch) w k
                       + c * hits + last).
Proof.
  intros Hs. unfold train. cbn [transitions].
  destruct (fold_count_of c inp (null_state order) _ Hs) as [Hs' Hc].
  rewrite (count_of_bump maybe_lt Hso) by exact Hs'.
  rewrite fold_final, Hc. unfold ends_with. cbv zeta.
  pose proof (occurrences_nonneg w k (null_state order) inp) as Hn.
  destruct (equiv (memory_lt maybe_lt) w (final_memory (null_state order) inp)
            && equiv maybe_lt k nothing).
  - destruct (occurrences maybe_lt w k (null_state order) inp + 1 =? 0) eqn:F;
      [apply Z.eqb_eq in F; lia|].
    destruct (occurrences maybe_lt w k (null_state order) inp =? 0) eqn:E.
    + apply Z.eqb_eq in E. rewrite E. unfold Counter.add. f_equal. lia.
    + unfold Counter.add. now rewrite wrap_add_l.
  - rewrite Z.add_0_r.
    destruct (occurrences maybe_lt w k (null_state order) inp =? 0);
      [reflexivity|]. now rewrite Z.add_0_r.
Qed.

(** X5: what a [train] call does to each counter.  The counter of
    successor [k] after window [w] grows, modulo [2^64], by the count [c]
    times the number of places of the input at which [k] is read with [w]
    as memory, and by 1 more, whatever [c] is, when [w] is the memory at the
    end of the input and [k] the terminator; a counter that the input does
    not touch is left as it is. *)
Theorem train_counts (inp : input T) (c : Z) (ch : chain T random)
  (w : memory T) (k : maybe T) :
  table_sorted maybe_lt (transitions ch) ->
  count_of maybe_lt (transitions (train maybe_lt order inp c ch)) w k
  = let hits := occurrences maybe_lt w k (null_state order) inp in
    let last := ends_with maybe_lt w k (null_state order) inp in
    if hits + last =? 0
    then count_of maybe_lt (transitions ch) w k
    else Counter.wrap (count_of maybe_lt (transitions ch) w k
                       + c * hits + last).
Proof. apply train_count_formula. Qed.

Lemma occurrences_nothing (w : memory T) (m : memory T) (inp : input T) :
  occurrences maybe_lt w nothing m inp = 0.
Proof.
  revert m. induction inp as [|v inp IH]; intros m; simpl; [reflexivity|].
  rewrite IH.
  assert (E : equiv maybe_lt nothing (just v) = false).
  { apply equiv_neq; [apply Hso|discriminate]. }
  rewrite E, andb_false_r. reflexivity.
Qed.

Lemma ends_with_just (w : memory T) (x : T) (m : memory T) (inp : input T) :
  ends_with maybe_lt w (just x) m inp = 0.
Proof.
  unfold ends_with.
  assert (E : equiv maybe_lt (just x) nothing = false).
  { apply equiv_neq; [apply Hso|discriminate]. }
  now rewrite E, andb_false_r.
Qed.

(** X6: training one input twice, with counts [c1] and [c2], leaves every
    symbol counter where training it once with count [c1 + c2] leaves it;
    the terminator counter at the end of the input is one higher. *)
Theorem train_twice_counts (inp : input T) (c1 c2 : Z) (ch : chain T random) :
  table_sorted maybe_lt (transitions ch) ->
  (forall w x,
      count_of maybe_lt
        (transitions (train maybe_lt order inp c2
                        (train maybe_lt order inp c1 ch))) w (just x)
      = count_of maybe_lt
          (transitions (train maybe_lt order inp (c1 + c2) ch)) w (just x)) /\
  count_of maybe_lt
    (transitions (train maybe_lt order inp c2 (train maybe_lt order inp c1 ch)))
    (final_memory (null_state order) inp) nothing
  = Counter.add
      (count_of maybe_lt (transitions (train maybe_lt order inp (c1 + c2) ch))
         (final_memory (null_state order) inp) nothing) 1.
Proof.
  intros Hs.
  assert (Hs1 : table_sorted maybe_lt
                  (transitions (train maybe_lt order inp c1 ch)))
    by now apply train_sorted.
  split.
  - intros w x. rewrite !train_count_formula by assumption. cbv zeta.
    rewrite ends_with_just, !Z.add_0_r.
    destruct (occurrences maybe_lt w (just x) (null_state order) inp =? 0);
      [reflexivity|].
    rewrite wrap_add_l. f_equal. lia.
  - rewrite !train_count_formula by assumption. cbv zeta.
    rewrite occurrences_nothing. unfold ends_with.
    rewrite (equiv_refl (memory_lt maybe_lt))
      by apply (lt_irrefl _ (so_keys _ (memory_strict_order maybe_lt Hso))).
    rewrite (equiv_refl maybe_lt) by apply (lt_irrefl _ (so_keys _ Hso)).
    simpl. rewrite !Z.mul_0_r, !Z.add_0_r. unfold Counter.add.
    now rewrite !wrap_add_l.
Qed.
End CountLaws.

(** ** What [operator[]] leaves in the list *)

Section SubscriptEntries.
Context {K V : Type}.
Variable lt : K -> K -> bool.

Lemma subscript_keys_kept (k : K) (d : V) (f : V -> V) (m : list (K * V))
  (k0 : K) :
  In k0 (map fst m) -> In k0 (map fst (subscript lt k d f m)).
Proof.
  destruct (subscript_decompose lt k d f m) as (l1 & l2 & k' & v & -> & H).
  destruct H as [(-> & _ & _)| ->]; rewrite !map_app, !in_app_iff; simpl;
    tauto.
Qed.

Hypothesis Hko : key_order lt.

Lemma subscript_In_inv (k : K) (d : V) (f : V -> V) (m : list (K * V))
  (e : K * V) :
  In e (subscript lt k d f m) ->
  In e m \/ exists v, e = (k, f v) /\ (v = d \/ In (k, v) m).
Proof.
  induction m as [|[k1 v1] m IH]; simpl.
  - intros [<-|[]]. right. exists d. auto.
  - destruct (lt k k1) eqn:E1.
    + intros [<-|H]; [right; exists d; auto|auto].
    + destruct (lt k1 k) eqn:E2.
      * intros [<-|H]; [auto|]. destruct (IH H) as [Hin|(v & -> & Hv)]; [auto|].
        right. exists v. split; [reflexivity|]. destruct Hv; auto.
      * assert (k = k1) by (apply (lt_total lt Hko); assumption). subst k1.
        intros [<-|H]; [|auto]. right. exists v1. auto.
Qed.

Lemma subscript_In_key (k : K) (d : V) (f : V -> V) (m : list (K * V)) :
  exists v, In (k, f v) (subscript lt k d f m).
Proof.
  induction m as [|[k1 v1] m IH]; simpl.
  - exists d. auto.
  - destruct (lt k k1) eqn:E1; [exists d; simpl; auto|].
    destruct (lt k1 k) eqn:E2.
    + destruct IH as [v Hv]. exists v. simpl. auto.
    + assert (k = k1) by (apply (lt_total lt Hko); assumption). subst k1.
      exists v1. simpl. auto.
Qed.

(** Right after [m[k]] has been written, [find] reads it. *)
Lemma find_subscript_hit (k : K) (d : V) (f : V -> V) (m : list (K * V)) :
  exists v, find lt k (subscript lt k d f m) = Some (f v).
Proof.
  pose proof (equiv_refl lt k (lt_irrefl lt Hko k)) as Hkk.
  induction m as [|[k1 v1] m IH]; simpl.
  - exists d. now rewrite Hkk.
  - destruct (lt k k1) eqn:E1; [exists d; simpl; now rewrite Hkk|].
    destruct (lt k1 k) eqn:E2; simpl.
    + assert (Eq : equiv lt k k1 = false)
        by (unfold equiv; now rewrite E1, E2).
      rewrite Eq. exact IH.
    + assert (Eq : equiv lt k k1 = true)
        by (unfold equiv; now rewrite E1, E2).
      rewrite Eq. now exists v1.
Qed.

Lemma find_has_key (k : K) (m : list (K * V)) :
  In k (map fst m) -> find lt k m <> None.
Proof.
  intros Hin Hn. apply in_map_iff in Hin. destruct Hin as (e & <- & Hin).
  rewrite find_None in Hn. specialize (Hn e Hin).
  rewrite (equiv_refl lt (fst e) (lt_irrefl lt Hko (fst e))) in Hn.
  discriminate.
Qed.

Lemma find_In_key (k : K) (m : list (K * V)) (v : V) :
  find lt k m = Some v -> In (k, v) m.
Proof.
  intros Hf. apply find_In in Hf. destruct Hf as (k' & Hin & He).
  apply (equiv_eq _ _ _ Hko) in He. now subst k'.
Qed.
End SubscriptEntries.

(** ** The sliding memory *)

Section Memory.
Context {T : Type}.

Lemma shift_skipn (m : memory T) (v : T) :
  shift m v = skipn 1 (m ++ [just v]).
Proof. now destruct m. Qed.

Lemma shift_length (m : memory T) (v : T) : length (shift m v) = length m.
Proof.
  destruct m as [|a m]; [reflexivity|]. simpl.
  rewrite length_app. simpl. lia.
Qed.

Lemma final_memory_skipn (inp : input T) (m : memory T) :
  final_memory m inp = skipn (length inp) (m ++ map just inp).
Proof.
  revert m. induction inp as [|v inp IH]; intros m.
  - simpl. now rewrite app_nil_r.
  - unfold final_memory in *. cbn [fold_left]. rewrite IH.
    destruct m as [|a m]; simpl.
    + clear IH. induction inp as [|u inp IHi]; [reflexivity|].
      simpl. destruct inp; [reflexivity|exact IHi].
    + now rewrite <- app_assoc.
Qed.

Lemma final_memory_length (inp : input T) (m : memory T) :
  length (final_memory m inp) = length m.
Proof.
  revert m. induction inp as [|v inp IH]; intros m; [reflexivity|].
  unfold final_memory in *. cbn [fold_left]. now rewrite IH, shift_length.
Qed.
End Memory.

(** ** Windows are never lost, and the end of an input is recorded *)

Section Presence.
Context {T random : Type}.
Variable maybe_lt : maybe T -> maybe T -> bool.
Variable order : nat.

Lemma find_kept {K V : Type} (lt : K -> K -> bool) (k k0 : K) (d : V)
  (f : V -> V) (m : list (K * V)) :
  find lt k0 m <> None -> find lt k0 (subscript lt k d f m) <> None.
Proof.
  intros Hf Hn. destruct (find lt k0 m) as [v|] eqn:E; [|contradiction].
  apply find_In in E. destruct E as (k' & Hin & He).
  rewrite find_None in Hn.
  assert (Hk : In k' (map fst (subscript lt k d f m))).
  { apply subscript_keys_kept. apply (in_map fst) in Hin. exact Hin. }
  apply in_map_iff in Hk. destruct Hk as (e & <- & Hin').
  rewrite (Hn e Hin') in He. discriminate.
Qed.

Lemma fold_find_kept (c : Z) (inp : input T) (w : memory T) :
  forall (m : memory T) (tr : table T),
  find (memory_lt maybe_lt) w tr <> None ->
  find (memory_lt maybe_lt) w
    (snd (fold_left (train_fold maybe_lt c) inp (m, tr))) <> None.
Proof.
  induction inp as [|v inp IH]; intros m tr Hf; [exact Hf|].
  cbn [fold_left]. unfold train_fold at 2. cbn [fst snd].
  apply IH. unfold bump. now apply find_kept.
Qed.

Lemma train_find_kept (inp : input T) (c : Z) (ch : chain T random)
  (w : memory T) :
  find (memory_lt maybe_lt) w (transitions ch) <> None ->
  find (memory_lt maybe_lt) w (transitions (train maybe_lt order inp c ch))
  <> None.
Proof.
  intros Hf. unfold train. cbn [transitions]. unfold bump.
  apply find_kept. now apply fold_find_kept.
Qed.

(** X7: training never removes a window: one that [find] finds before a
    series of [train] calls is found after it. *)
Theorem train_never_forgets (calls : list (input T * Z)) (ch : chain T random)
  (w : memory T) :
  find (memory_lt maybe_lt) w (transitions ch) <> None ->
  find (memory_lt maybe_lt) w
    (transitions (train_all maybe_lt order calls ch)) <> None.
Proof.
  revert ch. induction calls as [|[inp c] calls IH]; intros ch Hf; [exact Hf|].
  rewrite train_all_cons. apply IH. now apply train_find_kept.
Qed.

Hypothesis Hko : key_order maybe_lt.

(** X8: the memory at the end of an input is the last [order] elements of
    the null state followed by the input, and after [train] the table has,
    at that window, a transition with an entry for the terminator. *)
Theorem train_records_end (inp : input T) (c : Z) (ch : chain T random) :
  (0 < order)%nat ->
  let w := skipn (length inp) (null_state order ++ map just inp) in
  fst (fold_left (train_fold maybe_lt c) inp (null_state order, transitions ch))
  = w /\
  length w = order /\
  exists d n,
    find (memory_lt maybe_lt) w (transitions (train maybe_lt order inp c ch))
    = Some d /\ In (nothing, n) d.
Proof.
  intros _ w.
  assert (E : fst (fold_left (train_fold maybe_lt c) inp
                     (null_state order, transitions ch)) = w).
  { rewrite fold_final. apply final_memory_skipn. }
  split; [exact E|]. split.
  - subst w. rewrite <- final_memory_skipn, final_memory_length.
    apply repeat_length.
  - unfold train. cbn [transitions]. rewrite E. unfold bump.
    destruct (find_subscript_hit (memory_lt maybe_lt)
                (memory_order maybe_lt Hko) w []
                (subscript maybe_lt nothing 0 (fun n => Counter.add n 1))
                (snd (fold_left (train_fold maybe_lt c) inp
                        (null_state order, transitions ch)))) as [v Hv].
    destruct (subscript_In_key maybe_lt Hko nothing 0
                (fun n => Counter.add n 1) v) as [n Hn].
    eauto.
Qed.
End Presence.

(** ** Generating from a trained chain *)

Section Closedness.
Context {T random : Type}.
Variable maybe_lt : maybe T -> maybe T -> bool.
Variable order : nat.
Variable draw : random -> N * random.
Hypothesis Hko : key_order maybe_lt.

Lemma has_key_map (w : memory T) (tr : table T) :
  has_key w tr <-> In w (map fst tr).
Proof.
  unfold has_key. rewrite in_map_iff. split.
  - intros [d Hd]. now exists (w, d).
  - intros ([w' d] & <- & Hin). now exists d.
Qed.

Lemma bump_has_key_kept (s w : memory T) (k : maybe T) (c : Z) (tr : table T) :
  has_key w tr -> has_key w (bump maybe_lt s k c tr).
Proof. rewrite !has_key_map. apply subscript_keys_kept. Qed.

Lemma bump_has_key (s : memory T) (k : maybe T) (c : Z) (tr : table T) :
  has_key s (bump maybe_lt s k c tr).
Proof.
  unfold bump, has_key.
  destruct (subscript_In_key (memory_lt maybe_lt) (memory_order maybe_lt Hko)
              s [] (subscript maybe_lt k 0 (fun n => Counter.add n c)) tr)
    as [v Hv].
  eauto.
Qed.

Lemma bump_In_inv (s w : memory T) (k : maybe T) (c : Z) (tr : table T)
  (d' : transition T) (x : T) (n : Z) :
  In (w, d') (bump maybe_lt s k c tr) -> In (just x, n) d' ->
  (exists d, In (w, d) tr /\ In (just x, n) d) \/ (w = s /\ k = just x).
Proof.
  unfold bump. intros Hin Hx.
  apply (subscript_In_inv _ (memory_order maybe_lt Hko)) in Hin.
  destruct Hin as [Hin|(v & E & Hv)]; [left; eauto|].
  injection E as -> ->.
  apply (subscript_In_inv _ Hko) in Hx.
  destruct Hx as [Hx|(v0 & E & _)].
  - destruct Hv as [->|Hv]; [destruct Hx|]. left. eauto.
  - injection E as <- _. now right.
Qed.

(** The table is closed but for successors that lead to memory [m]. *)
Lemma step_pending (m : memory T) (v : T) (c : Z) (tr : table T) :
  (forall w d x n, In (w, d) tr -> In (just x, n) d ->
                   has_key (shift w x) tr \/ shift w x = m) ->
  forall w d x n,
    In (w, d) (bump maybe_lt m (just v) c tr) -> In (just x, n) d ->
    has_key (shift w x) (bump maybe_lt m (just v) c tr)
    \/ shift w x = shift m v.
Proof.
  intros Hp w d x n Hin Hx.
  destruct (bump_In_inv _ _ _ _ _ _ _ _ Hin Hx) as [(d0 & H0 & Hx0)|[-> E]].
  - left. destruct (Hp _ _ _ _ H0 Hx0) as [Hk| ->].
    + now apply bump_has_key_kept.
    + apply bump_has_key.
  - right. now injection E as ->.
Qed.

Lemma fold_pending (c : Z) (inp : input T) :
  forall (m : memory T) (tr : table T),
  (forall w d x n, In (w, d) tr -> In (just x, n) d ->
                   has_key (shift w x) tr \/ shift w x = m) ->
  forall w d x n,
    In (w, d) (snd (fold_left (train_fold maybe_lt c) inp (m, tr))) ->
    In (just x, n) d ->
    has_key (shift w x) (snd (fold_left (train_fold maybe_lt c) inp (m, tr)))
    \/ shift w x = fst (fold_left (train_fold maybe_lt c) inp (m, tr)).
Proof.
  induction inp as [|v inp IH]; intros m tr Hp; [exact Hp|].
  cbn [fold_left]. unfold train_fold at 2 4 6. cbn [fst snd].
  apply IH. now apply step_pending.
Qed.

Lemma train_closed (inp : input T) (c : Z) (ch : chain T random) :
  closed (transitions ch) ->
  closed (transitions (train maybe_lt order inp c ch)).
Proof.
  intros Hc. unfold train. cbn [transitions].
  pose proof (fold_pending c inp (null_state order) (transitions ch)) as Hp.
  set (st := fold_left (train_fold maybe_lt c) inp
               (null_state order, transitions ch)) in *.
  intros w d x n Hin Hx.
  destruct (bump_In_inv _ _ _ _ _ _ _ _ Hin Hx) as [(d0 & H0 & Hx0)|[_ E]];
    [|discriminate].
  destruct (Hp (fun w d x n Hw Hd => or_introl (Hc w d x n Hw Hd))
              _ _ _ _ H0 Hx0) as [Hk| ->].
  - now apply bump_has_key_kept.
  - apply bump_has_key.
Qed.

Lemma fold_has_key_kept (c : Z) (inp : input T) (w : memory T) :
  forall (m : memory T) (tr : table T),
  has_key w tr ->
  has_key w (snd (fold_left (train_fold maybe_lt c) inp (m, tr))).
Proof.
  induction inp as [|v inp IH]; intros m tr Hk; [exact Hk|].
  cbn [fold_left]. unfold train_fold at 2. cbn [fst snd].
  apply IH. now apply bump_has_key_kept.
Qed.

Lemma train_has_key_kept (inp : input T) (c : Z) (ch : chain T random)
  (w : memory T) :
  has_key w (transitions ch) ->
  has_key w (transitions (train maybe_lt order inp c ch)).
Proof.
  intros Hk. unfold train. cbn [transitions].
  apply bump_has_key_kept. now apply fold_has_key_kept.
Qed.

Lemma train_has_null (inp : input T) (c : Z) (ch : chain T random) :
  has_key (null_state order) (transitions (train maybe_lt order inp c ch)).
Proof.
  unfold train. cbn [transitions]. destruct inp as [|v inp].
  - simpl. apply bump_has_key.
  - cbn [fold_left]. unfold train_fold at 2 4. cbn [fst snd].
    apply bump_has_key_kept, fold_has_key_kept, bump_has_key.
Qed.

Lemma train_all_closed (calls : list (input T * Z)) (ch : chain T random) :
  closed (transitions ch) ->
  closed (transitions (train_all maybe_lt order calls ch)).
Proof.
  revert ch. induction calls as [|[inp c] calls IH]; intros ch Hc; [exact Hc|].
  rewrite train_all_cons. apply IH. now apply train_closed.
Qed.

Lemma train_all_has_key_kept (calls : list (input T * Z)) (ch : chain T random)
  (w : memory T) :
  has_key w (transitions ch) ->
  has_key w (transitions (train_all maybe_lt order calls ch)).
Proof.
  revert ch. induction calls as [|[inp c] calls IH]; intros ch Hk; [exact Hk|].
  rewrite train_all_cons. apply IH. now apply train_has_key_kept.
Qed.

Lemma scan_In (d : transition T) (r : Z) :
  match scan d r with
  | Emit x => exists n, In (just x, n) d
  | Stop => exists n, In (@nothing T, n) d
  | Exhausted => True
  end.
Proof.
  revert r. induction d as [|[k n] d IH]; intros r; simpl; [exact I|].
  destruct (n <? r).
  - specialize (IH (Counter.sub r n)).
    destruct (scan d (Counter.sub r n)); [| |exact I];
      destruct IH as [n' Hn']; exists n'; now right.
  - destruct k; exists n; now left.
Qed.

Lemma loop_never_impossible (tr : table T) :
  closed tr ->
  forall (fuel : nat) (ch : chain T random) (rv : output T) (m : memory T),
  transitions ch = tr -> has_key m tr ->
  fst (loop maybe_lt draw fuel ch rv m) <> ImpossibleState.
Proof.
  intros Hc. induction fuel as [|fuel IH]; intros ch rv m Ht Hk; simpl;
    [discriminate|].
  unfold iteration.
  destruct (find (memory_lt maybe_lt) m (transitions ch)) as [d|] eqn:Hf.
  - cbv zeta. destruct (accumulate d =? 0); [simpl; discriminate|].
    unfold sample.
    pose proof (scan_In d (Z.of_N (fst (draw (RNG ch))) mod accumulate d))
      as Hs.
    destruct (scan d (Z.of_N (fst (draw (RNG ch))) mod accumulate d))
      as [x| |].
    + apply IH; [exact Ht|]. destruct Hs as [n Hn].
      apply (find_In_key _ (memory_order maybe_lt Hko)) in Hf.
      rewrite Ht in Hf. exact (Hc _ _ _ _ Hf Hn).
    + simpl. discriminate.
    + now apply IH.
  - exfalso. revert Hf. apply (find_has_key _ (memory_order maybe_lt Hko)).
    rewrite Ht. now apply has_key_map.
Qed.

(** X9: once a chain has been trained, on anything at all, the generator
    never throws: every window it can reach has a transition.  (The doc of
    [operator()] says the exception "should only ever happen if you try to
    generate data without training the model first".) *)
Theorem trained_never_impossible (calls : list (input T * Z)) (g : random)
  (fuel : nat) :
  calls <> [] ->
  fst (generate maybe_lt order draw fuel
         (train_all maybe_lt order calls (fresh g)))
  <> ImpossibleState.
Proof.
  intros Hne. destruct calls as [|[inp c] calls]; [contradiction|].
  unfold generate.
  apply (loop_never_impossible
           (transitions (train_all maybe_lt order ((inp, c) :: calls)
                           (fresh g)))).
  - apply train_all_closed. intros w d x n [].
  - reflexivity.
  - rewrite train_all_cons. apply train_all_has_key_kept, train_has_null.
Qed.

(** X10: whatever the generator returns can be read off the table: each
    symbol is a recorded successor of the window before it, and the
    terminator is a recorded successor of the last window. *)
Theorem generate_walks_table (fuel : nat) (ch : chain T random)
  (rv : output T) :
  fst (generate maybe_lt order draw fuel ch) = Returned rv ->
  walk maybe_lt (transitions ch) (null_state order) rv.
Proof.
  unfold generate.
  assert (H : forall fuel (c : chain T random) rv0 m,
             transitions c = transitions ch ->
             fst (loop maybe_lt draw fuel c rv0 m) = Returned rv ->
             exists sfx, rv = rv0 ++ sfx /\
                         walk maybe_lt (transitions ch) m sfx).
  { clear fuel. induction fuel as [|fuel IH]; intros c rv0 m Ht; simpl;
      [discriminate|].
    unfold iteration. rewrite Ht.
    destruct (find (memory_lt maybe_lt) m (transitions ch)) as [d|] eqn:Hf;
      [|simpl; discriminate].
    cbv zeta. destruct (accumulate d =? 0); [simpl; discriminate|].
    unfold sample.
    pose proof (scan_In d (Z.of_N (fst (draw (RNG c))) mod accumulate d))
      as Hs.
    destruct (scan d (Z.of_N (fst (draw (RNG c))) mod accumulate d))
      as [x| |].
    - intros Hl. apply IH in Hl; [|reflexivity].
      destruct Hl as (sfx & -> & Hw). exists (x :: sfx).
      rewrite <- app_assoc. split; [reflexivity|]. simpl.
      destruct Hs as [n Hn]. split; [eauto|exact Hw].
    - simpl. intros [= <-]. exists []. rewrite app_nil_r.
      split; [reflexivity|]. simpl. destruct Hs as [n Hn]. eauto.
    - intros Hl. apply IH in Hl; [exact Hl|reflexivity]. }
  intros Hl. apply H in Hl; [|reflexivity].
  destruct Hl as (sfx & -> & Hw). exact Hw.
Qed.
End Closedness.

(** ** Counters that stay clear of the [int] accumulator *)

Section SmallCounts.
Context {T random : Type}.
Variable maybe_lt : maybe T -> maybe T -> bool.
Variable order : nat.
Variable draw : random -> N * random.

Lemma budget_cons (s : input T) (w : Z) (calls : list (input T * Z)) :
  budget ((s, w) :: calls) = w * Z.of_nat (length s) + 1 + budget calls.
Proof. reflexivity. Qed.

Lemma train_all_counts (calls : list (input T * Z)) :
  positive_weights calls -> forall ch : chain T random,
  well_counted (transitions ch) ->
  table_count (transitions ch) + budget calls < Counter.modulus ->
  well_counted (transitions (train_all maybe_lt order calls ch)) /\
  table_count (transitions (train_all maybe_lt order calls ch))
  = table_count (transitions ch) + budget calls.
Proof.
  induction 1 as [|[s w] calls Hw Hp IH]; intros ch Hc Hs.
  - simpl. unfold budget. simpl. split; [exact Hc|lia].
  - pose proof (budget_nonneg calls Hp) as Hb.
    rewrite budget_cons in *. simpl in Hw.
    rewrite train_all_cons. cbn [fst snd].
    destruct (train_count maybe_lt order s w ch) as [Hw1 Ht1];
      [lia|exact Hc|nia|].
    destruct (IH _ Hw1) as [Hw2 Ht2]; [rewrite Ht1; lia|].
    split; [exact Hw2|]. rewrite Ht2, Ht1. lia.
Qed.

Lemma well_counted_bound (tr : table T) (w : memory T) (d : transition T) :
  well_counted tr -> In (w, d) tr -> total_count d <= table_count tr.
Proof.
  induction 1 as [|e tr [He _] Hw IH]; intros Hin; [destruct Hin|].
  rewrite table_count_cons. pose proof (table_count_nonneg tr Hw).
  destruct Hin as [->|Hin]; [simpl; lia|]. specialize (IH Hin). lia.
Qed.

Lemma count_bound (d : transition T) (k : maybe T) (n : Z) :
  Forall (fun t => 0 <= snd t) d -> In (k, n) d -> n <= total_count d.
Proof.
  induction 1 as [|t d Ht Hd IH]; intros Hin; [destruct Hin|]. simpl.
  pose proof (total_count_nonneg d Hd).
  destruct Hin as [->|Hin]; [simpl; lia|]. specialize (IH Hin). lia.
Qed.

(** A transition whose counters are non-negative and whose total is
    positive and fits the [int] accumulator. *)
Lemma small_trained (calls : list (input T * Z)) (g : random) (w : memory T)
  (d : transition T) :
  positive_weights calls -> budget calls < Int.half ->
  In (w, d) (transitions (train_all maybe_lt order calls (fresh g))) ->
  Forall (fun t => Counter.in_range (snd t)) d /\
  0 < total_count d < Int.half.
Proof.
  intros Hp Hb Hin.
  assert (Hh : Int.half = 2 ^ 31) by reflexivity.
  assert (Hm : Counter.modulus = 2 ^ 64) by reflexivity.
  destruct (train_all_counts calls Hp (fresh g)) as [Hw Ht].
  { constructor. }
  { simpl. unfold table_count. simpl. lia. }
  pose proof (well_counted_bound _ w d Hw Hin) as Hle.
  rewrite Ht in Hle. unfold table_count at 1 in Hle. simpl in Hle.
  unfold well_counted in Hw. rewrite Forall_forall in Hw.
  destruct (Hw _ Hin) as [Hpos Hnn]. simpl in Hpos, Hnn.
  split; [|lia].
  rewrite Forall_forall in Hnn |- *. intros [k n] Hk.
  pose proof (count_bound d k n (proj2 (Forall_forall _ _) Hnn) Hk).
  specialize (Hnn _ Hk). simpl in *. unfold Counter.in_range. lia.
Qed.

Lemma loop_never_divides_by_zero (tr : table T) :
  (forall w d, In (w, d) tr -> accumulate d <> 0) ->
  forall (fuel : nat) (ch : chain T random) (rv : output T) (m : memory T),
  transitions ch = tr ->
  fst (loop maybe_lt draw fuel ch rv m) <> DivideByZero.
Proof.
  intros Hacc. induction fuel as [|fuel IH]; intros ch rv m Ht; simpl;
    [discriminate|].
  unfold iteration.
  destruct (find (memory_lt maybe_lt) m (transitions ch)) as [d|] eqn:Hf;
    [|simpl; discriminate].
  cbv zeta. apply find_In in Hf. destruct Hf as (k & Hin & _).
  rewrite Ht in Hin. specialize (Hacc _ _ Hin).
  destruct (accumulate d =? 0) eqn:E; [apply Z.eqb_eq in E; contradiction|].
  unfold sample.
  destruct (scan d (Z.of_N (fst (draw (RNG ch))) mod accumulate d)).
  - now apply IH.
  - simpl. discriminate.
  - now apply IH.
Qed.

(** X11: when the table is filled from empty by [train] calls with
    positive counts whose increments sum to less than [2^31], the generator
    never divides by zero in [RNG() % c]. *)
Theorem trained_never_divides_by_zero (calls : list (input T * Z))
  (g : random) (fuel : nat) :
  positive_weights calls -> budget calls < Int.half ->
  fst (generate maybe_lt order draw fuel
         (train_all maybe_lt order calls (fresh g)))
  <> DivideByZero.
Proof.
  intros Hp Hb. unfold generate.
  apply (loop_never_divides_by_zero
           (transitions (train_all maybe_lt order calls (fresh g))));
    [|reflexivity].
  intros w d Hin. destruct (small_trained calls g w d Hp Hb Hin) as [Hr Ht].
  rewrite accumulate_exact; [lia| |lia].
  eapply Forall_impl; [|exact Hr]. intros t [H _]. exact H.
Qed.

Lemma train_all_RNG (calls : list (input T * Z)) (ch : chain T random) :
  RNG (train_all maybe_lt order calls ch) = RNG ch.
Proof.
  revert ch. induction calls as [|[inp c] calls IH]; intros ch; [reflexivity|].
  rewrite train_all_cons, IH. reflexivity.
Qed.

Lemma advance_next (n : nat) (g : random) :
  advance draw n (snd (draw g)) = advance draw (S n) g.
Proof. unfold advance. now rewrite Nat.iter_succ_r. Qed.

Lemma iteration_small (ch : chain T random) (rv : output T) (m : memory T)
  (d : transition T) :
  find (memory_lt maybe_lt) m (transitions ch) = Some d ->
  Forall (fun t => Counter.in_range (snd t)) d ->
  0 < total_count d < Int.half ->
  let ch' := {| RNG := snd (draw (RNG ch)); transitions := transitions ch |} in
  (exists x, iteration maybe_lt draw ch rv m = Next ch' (rv ++ [x]) (shift m x))
  \/ iteration maybe_lt draw ch rv m = Done (Returned rv) ch'.
Proof.
  intros Hf Hd Ht ch'. unfold iteration. rewrite Hf.
  assert (Hn : Forall (fun t : maybe T * Z => 0 <= snd t) d).
  { eapply Forall_impl; [|exact Hd]. intros t [H _]. exact H. }
  rewrite (accumulate_exact d Hn) by lia. cbv zeta.
  destruct (total_count d =? 0) eqn:E; [apply Z.eqb_eq in E; lia|].
  set (r := Z.of_N (fst (draw (RNG ch))) mod total_count d).
  assert (Hr : 0 <= r < total_count d) by (apply Z.mod_pos_bound; lia).
  assert (Hh : Int.half = 2 ^ 31) by reflexivity.
  assert (Hm : Counter.modulus = 2 ^ 64) by reflexivity.
  destruct (scan_in_total d r Hd) as [Hs _];
    [unfold Counter.in_range; lia|lia|].
  unfold sample. destruct (scan d r) as [x| |].
  - left. now exists x.
  - now right.
  - contradiction.
Qed.

Lemma loop_draws (tr : table T) (rv : output T) :
  (forall w d, In (w, d) tr ->
               Forall (fun t => Counter.in_range (snd t)) d /\
               0 < total_count d < Int.half) ->
  forall (fuel : nat) (ch : chain T random) (rv0 : output T) (m : memory T),
  transitions ch = tr ->
  fst (loop maybe_lt draw fuel ch rv0 m) = Returned rv ->
  exists n : nat,
    (n < fuel)%nat /\ length rv = (length rv0 + n)%nat /\
    RNG (snd (loop maybe_lt draw fuel ch rv0 m))
    = advance draw (S n) (RNG ch) /\
    loop maybe_lt draw (S n) ch rv0 m = loop maybe_lt draw fuel ch rv0 m.
Proof.
  intros Hsmall. induction fuel as [|fuel IH]; intros ch rv0 m Ht;
    [discriminate|]. cbn [loop].
  destruct (find (memory_lt maybe_lt) m (transitions ch)) as [d|] eqn:Hf.
  - pose proof Hf as Hin. apply find_In in Hin. destruct Hin as (k & Hin & _).
    rewrite Ht in Hin. destruct (Hsmall _ _ Hin) as [Hd Htot].
    destruct (iteration_small ch rv0 m d Hf Hd Htot) as [[x Hit]|Hit];
      rewrite Hit.
    + intros Hl.
      destruct (IH {| RNG := snd (draw (RNG ch));
                      transitions := transitions ch |} _ _ Ht Hl)
        as (n & Hn & Hlen & Hrng & Hsame).
      exists (S n). cbn [RNG] in Hrng. rewrite advance_next in Hrng.
      rewrite length_app in Hlen. simpl in Hlen.
      repeat split; [lia|lia|exact Hrng|].
      exact Hsame.
    + simpl. intros [= <-]. exists 0%nat.
      repeat split; [lia|lia].
  - unfold iteration. rewrite Hf. discriminate.
Qed.

(** X12: under the same conditions a call that returns [rv] has gone
    through the loop once per symbol and once more for the terminator: it
    has called [RNG()] exactly [length rv + 1] times, and that many passes
    are all it needs. *)
Theorem generate_draws_once_per_symbol (calls : list (input T * Z))
  (g : random) (fuel : nat) (rv : output T) :
  positive_weights calls -> budget calls < Int.half ->
  fst (generate maybe_lt order draw fuel
         (train_all maybe_lt order calls (fresh g))) = Returned rv ->
  (length rv < fuel)%nat /\
  RNG (snd (generate maybe_lt order draw fuel
              (train_all maybe_lt order calls (fresh g))))
  = advance draw (S (length rv)) g /\
  generate maybe_lt order draw (S (length rv))
    (train_all maybe_lt order calls (fresh g))
  = generate maybe_lt order draw fuel
      (train_all maybe_lt order calls (fresh g)).
Proof.
  intros Hp Hb Hl. unfold generate in *.
  set (ch := train_all maybe_lt order calls (fresh g)) in *.
  assert (Hg : RNG ch = g) by apply train_all_RNG.
  destruct (loop_draws (transitions ch) rv
              (fun w d => small_trained calls g w d Hp Hb)
              fuel ch [] (null_state order) eq_refl Hl)
    as (n & Hn & Hlen & Hrng & Hsame).
  simpl in Hlen. subst n. rewrite <- Hg. auto.
Qed.
End SmallCounts.

(** ** The modulus the generator computes *)

Lemma of_counter_congr (x y : Z) :
  x mod Int.modulus = y mod Int.modulus -> Int.of_counter x = Int.of_counter y.
Proof. unfold Int.of_counter. now intros ->. Qed.

Lemma of_counter_mod (s : Z) :
  Int.of_counter s mod Int.modulus = s mod Int.modulus.
Proof.
  unfold Int.of_counter.
  destruct (s mod Int.modulus <? Int.half).
  - apply Z.mod_mod. discriminate.
  - rewrite <- (Z.mod_mod s Int.modulus) at 2 by discriminate.
    rewrite <- (Z_mod_plus_full (s mod Int.modulus) (-1) Int.modulus).
    f_equal; lia.
Qed.

Lemma wrap_mod_int (x : Z) :
  Counter.wrap x mod Int.modulus = x mod Int.modulus.
Proof.
  unfold Counter.wrap. apply Z.mod_mod_divide.
  exists (2 ^ 32). reflexivity.
Qed.

Lemma accumulate_fold_int (T : Type) (d : transition T) (s : Z) :
  fold_left
    (fun v t => Int.of_counter (Counter.add (Int.to_counter v) (snd t)))
    d (Int.of_counter s)
  = Int.of_counter (s + total_count d).
Proof.
  revert s. induction d as [|[k n] d IH]; intros s; simpl.
  - now rewrite Z.add_0_r.
  - assert (E : Int.of_counter
                  (Counter.add (Int.to_counter (Int.of_counter s)) n)
                = Int.of_counter (s + n)).
    { apply of_counter_congr. unfold Counter.add, Int.to_counter.
      rewrite wrap_mod_int.
      rewrite <- Z.add_mod_idemp_l by discriminate.
      rewrite wrap_mod_int, of_counter_mod.
      now rewrite Z.add_mod_idemp_l by discriminate. }
    rewrite E, IH. f_equal. lia.
Qed.

(** X13: the modulus that the generator computes for a transition is the
    sum of its counters reduced to a 32-bit [int] and sign-extended to
    [counter]; it is 0, and [RNG() % c] divides by zero, exactly when the
    sum is a multiple of [2^32]. *)
Theorem accumulate_is_int_sum (T : Type) (d : transition T) :
  accumulate d = Int.to_counter (Int.of_counter (total_count d)) /\
  (accumulate d = 0 <-> total_count d mod 2 ^ 32 = 0).
Proof.
  assert (E : accumulate d = Int.to_counter (Int.of_counter (total_count d))).
  { unfold accumulate. change 0 with (Int.of_counter 0) at 1.
    now rewrite accumulate_fold_int. }
  split; [exact E|]. rewrite E.
  unfold Int.to_counter, Counter.wrap, Int.of_counter.
  change Int.modulus with (2 ^ 32). change Int.half with (2 ^ 31).
  change Counter.modulus with (2 ^ 64).
  pose proof (Z.mod_pos_bound (total_count d) (2 ^ 32) eq_refl) as Hb.
  destruct (total_count d mod 2 ^ 32 <? 2 ^ 31) eqn:F.
  - rewrite Z.mod_small by lia. reflexivity.
  - apply Z.ltb_ge in F. split.
    + intros H.
      rewrite <- (Z_mod_plus_full _ 1 (2 ^ 64)) in H.
      rewrite Z.mod_small in H by lia. lia.
    + intros H. lia.
Qed.

(** ** One input, and the scan *)

(** X14: a chain trained from empty on one input, with any count below
    [2^31], whose memories along the input are pairwise different, holds
    exactly one single-successor transition per memory, and generates that
    input again, whatever the random source draws. *)
Theorem single_input_reproduced {T random : Type}
  (maybe_lt : maybe T -> maybe T -> bool) (order : nat)
  (draw : random -> N * random) (inp : input T) (c : Z) (g : random)
  (fuel : nat) :
  key_order maybe_lt ->
  0 < c < Int.half ->
  NoDup (windows (null_state order) inp) ->
  (length inp < fuel)%nat ->
  Permutation (transitions (train maybe_lt order inp c (fresh g)))
    (entries c (null_state order) inp) /\
  fst (generate maybe_lt order draw fuel (train maybe_lt order inp c (fresh g)))
  = Returned inp.
Proof.
  intros Hko Hc Hnd Hfuel. split.
  - now apply train_fresh_entries.
  - now apply generate_reproduces.
Qed.

(** X15: which remainders draw which entry.  The entry that follows the
    entries [d1] is taken for the remainders above the sum of the counts of
    [d1] and up to that sum plus its own count; the first entry is taken
    for every remainder from 0 up to its count. *)
Theorem scan_intervals {T : Type} (d1 d2 : transition T) (k : maybe T)
  (n r : Z) :
  Forall (fun t => Counter.in_range (snd t)) d1 ->
  Counter.in_range r ->
  d1 = [] \/ total_count d1 < r ->
  r <= total_count d1 + n ->
  scan (d1 ++ (k, n) :: d2) r
  = match k with
    | just x => Emit x
    | nothing => Stop
    end.
Proof.
  intros Hd. revert r. induction Hd as [|[k1 n1] d1 Hn Hd IH]; intros r Hr Hlo Hhi.
  - simpl in *. destruct (n <? r) eqn:E; [apply Z.ltb_lt in E; lia|reflexivity].
  - destruct Hlo as [Hlo|Hlo]; [discriminate|]. simpl in *.
    pose proof (total_count_nonneg d1) as Hp.
    assert (Hnn : Forall (fun t : maybe T * Z => 0 <= snd t) d1).
    { eapply Forall_impl; [|exact Hd]. intros t [H _]. exact H. }
    specialize (Hp Hnn). unfold Counter.in_range in *.
    destruct (n1 <? r) eqn:E; [|apply Z.ltb_ge in E; lia].
    rewrite sub_exact by lia. apply IH; [lia| |lia].
    destruct d1; [now left|right; lia].
Qed.

(** * Instances of the further properties on the chain over [int] *)

Lemma int_maybe_strict : strict_order IntChain.maybe_lt.
Proof.
  split; [exact int_maybe_order|].
  intros [|x] [|y] [|z]; simpl; try discriminate; try reflexivity.
  intros H1 H2. apply Z.ltb_lt in H1, H2. apply Z.ltb_lt. lia.
Defined.

Lemma empty_sorted : table_sorted IntChain.maybe_lt (transitions IntChain.empty).
Proof. split; [exact I|constructor]. Defined.

Lemma trained_table_in_key_order_witness :
  table_sorted IntChain.maybe_lt
    (transitions (train_all IntChain.maybe_lt 1 [([2; 1], 1); ([1], 2)]
                    (fresh tt))) /\
  NoDup (map fst (transitions (train_all IntChain.maybe_lt 1
                                 [([2; 1], 1); ([1], 2)] (fresh tt)))) /\
  Forall (fun e => NoDup (map fst (snd e)))
    (transitions (train_all IntChain.maybe_lt 1 [([2; 1], 1); ([1], 2)]
                    (fresh tt))).
Proof.
  exact (trained_table_in_key_order IntChain.maybe_lt 1 int_maybe_strict
           [([2; 1], 1); ([1], 2)] tt).
Defined.

Lemma train_commutes_witness :
  IntChain.train1 [1] 2 (IntChain.train1 [2; 1] 1 IntChain.empty)
  = IntChain.train1 [2; 1] 1 (IntChain.train1 [1] 2 IntChain.empty).
Proof.
  apply (train_commutes IntChain.maybe_lt 1 int_maybe_strict [1] [2; 1] 2 1
           IntChain.empty).
  exact empty_sorted.
Defined.

Lemma train_all_any_order_witness :
  train_all IntChain.maybe_lt 1 [([1], 2); ([2; 1], 1)] IntChain.empty
  = train_all IntChain.maybe_lt 1 [([2; 1], 1); ([1], 2)] IntChain.empty.
Proof.
  apply (train_all_any_order IntChain.maybe_lt 1 int_maybe_strict).
  - apply perm_swap.
  - exact empty_sorted.
Defined.

Lemma chain_of_data_any_order_witness :
  (forall (pRNG : unit) (pData pData' : list (input Z)),
      Permutation pData pData' ->
      chain_of_inputs IntChain.maybe_lt 1 pRNG pData
      = chain_of_inputs IntChain.maybe_lt 1 pRNG pData') /\
  (forall (pRNG : unit) (pData pData' : list (input Z * Z)),
      Permutation pData pData' ->
      chain_of_tuples IntChain.maybe_lt 1 pRNG pData
      = chain_of_tuples IntChain.maybe_lt 1 pRNG pData') /\
  (forall (pRNG : unit) (pData : list (input Z)),
      chain_of_inputs IntChain.maybe_lt 1 pRNG pData
      = chain_of_tuples IntChain.maybe_lt 1 pRNG (map (fun d => (d, 1)) pData)).
Proof.
  exact (chain_of_data_any_order (random:=unit) IntChain.maybe_lt 1
           int_maybe_strict).
Defined.

Lemma train_counts_witness :
  count_of IntChain.maybe_lt
    (transitions (IntChain.train1 [1; 1; 1] 5 IntChain.empty)) [just 1] (just 1)
  = 10.
Proof.
  exact (eq_trans
           (train_counts IntChain.maybe_lt 1 int_maybe_strict [1; 1; 1] 5
              IntChain.empty [just 1] (just 1) empty_sorted)
           eq_refl).
Defined.

Lemma train_twice_counts_witness :
  (forall (w : memory Z) (x : Z),
      count_of IntChain.maybe_lt
        (transitions (IntChain.train1 [1; 2] 3
                        (IntChain.train1 [1; 2] 2 IntChain.empty))) w (just x)
      = count_of IntChain.maybe_lt
          (transitions (IntChain.train1 [1; 2] (2 + 3) IntChain.empty))
          w (just x)) /\
  count_of IntChain.maybe_lt
    (transitions (IntChain.train1 [1; 2] 3
                    (IntChain.train1 [1; 2] 2 IntChain.empty)))
    (final_memory (null_state 1) [1; 2]) nothing
  = Counter.add
      (count_of IntChain.maybe_lt
         (transitions (IntChain.train1 [1; 2] (2 + 3) IntChain.empty))
         (final_memory (null_state 1) [1; 2]) nothing) 1.
Proof.
  apply (train_twice_counts IntChain.maybe_lt 1 int_maybe_strict [1; 2] 2 3
           IntChain.empty).
  exact empty_sorted.
Defined.

Lemma train_never_forgets_witness :
  find (memory_lt IntChain.maybe_lt) [just 1]
    (transitions (train_all IntChain.maybe_lt 1 [([2], 1); ([3; 4], 2)]
                    (IntChain.train1 [1] 1 IntChain.empty)))
  <> None.
Proof.
  apply (train_never_forgets IntChain.maybe_lt 1 [([2], 1); ([3; 4], 2)]
           (IntChain.train1 [1] 1 IntChain.empty) [just 1]).
  vm_compute. discriminate.
Defined.

Lemma train_records_end_witness :
  fst (fold_left (train_fold IntChain.maybe_lt 1) [1; 2; 3]
         (null_state 2, transitions IntChain.empty))
  = [just 2; just 3] /\
  length [@just Z 2; just 3] = 2%nat /\
  exists d n,
    find (memory_lt IntChain.maybe_lt) [just 2; just 3]
      (transitions (train IntChain.maybe_lt 2 [1; 2; 3] 1 IntChain.empty))
    = Some d /\ In (nothing, n) d.
Proof.
  apply (train_records_end IntChain.maybe_lt 2 int_maybe_order [1; 2; 3] 1
           IntChain.empty).
  lia.
Defined.

Lemma trained_never_impossible_witness :
  fst (generate IntChain.maybe_lt 1 (IntChain.constant 5) 7
         (train_all IntChain.maybe_lt 1 [([1; 1], 1)] (fresh tt)))
  <> ImpossibleState.
Proof.
  apply (trained_never_impossible IntChain.maybe_lt 1 (IntChain.constant 5)
           int_maybe_order [([1; 1], 1)] tt 7).
  discriminate.
Defined.

Lemma generate_walks_table_witness :
  walk IntChain.maybe_lt
    (transitions (IntChain.train1 [1; 2] 1 IntChain.empty)) (null_state 1)
    [1; 2].
Proof.
  apply (generate_walks_table IntChain.maybe_lt 1 (IntChain.constant 0) 3
           (IntChain.train1 [1; 2] 1 IntChain.empty) [1; 2]).
  reflexivity.
Defined.

Lemma trained_never_divides_by_zero_witness :
  fst (generate IntChain.maybe_lt 1 (IntChain.constant 5) 7
         (train_all IntChain.maybe_lt 1 [([1; 1], 3)] (fresh tt)))
  <> DivideByZero.
Proof.
  apply (trained_never_divides_by_zero IntChain.maybe_lt 1
           (IntChain.constant 5) [([1; 1], 3)] tt 7).
  - constructor; [|constructor]. simpl. split; reflexivity.
  - reflexivity.
Defined.

Lemma generate_draws_once_per_symbol_witness :
  (length [1; 2] < 9)%nat /\
  RNG (snd (generate IntChain.maybe_lt 1 (fun s : nat => (0%N, S s)) 9
              (train_all IntChain.maybe_lt 1 [([1; 2], 1)] (fresh 0%nat))))
  = advance (fun s : nat => (0%N, S s)) (S (length [1; 2])) 0%nat /\
  generate IntChain.maybe_lt 1 (fun s : nat => (0%N, S s)) (S (length [1; 2]))
    (train_all IntChain.maybe_lt 1 [([1; 2], 1)] (fresh 0%nat))
  = generate IntChain.maybe_lt 1 (fun s : nat => (0%N, S s)) 9
      (train_all IntChain.maybe_lt 1 [([1; 2], 1)] (fresh 0%nat)).
Proof.
  apply (generate_draws_once_per_symbol IntChain.maybe_lt 1
           (fun s : nat => (0%N, S s)) [([1; 2], 1)] 0%nat 9 [1; 2]).
  - constructor; [|constructor]. simpl. split; reflexivity.
  - reflexivity.
  - reflexivity.
Defined.

Lemma single_input_reproduced_witness :
  Permutation
    (transitions (train IntChain.maybe_lt 2 [1; 1; 2] 7 (fresh tt)))
    (entries 7 (null_state 2) [1; 1; 2]) /\
  fst (generate IntChain.maybe_lt 2 (IntChain.constant 12345) 4
         (train IntChain.maybe_lt 2 [1; 1; 2] 7 (fresh tt)))
  = Returned [1; 1; 2].
Proof.
  apply (single_input_reproduced IntChain.maybe_lt 2 (IntChain.constant 12345)
           [1; 1; 2] 7 tt 4).
  - exact int_maybe_order.
  - split; reflexivity.
  - unfold null_state. simpl.
    repeat (apply NoDup_cons; [simpl; intuition discriminate|]).
    apply NoDup_nil.
  - simpl. lia.
Defined.

Lemma scan_intervals_witness :
  scan ([(@just Z 1, 2)] ++ (just 2, 3) :: [(nothing, 1)]) 5 = Emit 2.
Proof.
  apply (scan_intervals [(@just Z 1, 2)] [(nothing, 1)] (just 2) 3 5).
  - repeat constructor; discriminate.
  - split; [discriminate|reflexivity].
  - right. reflexivity.
  - discriminate.
Defined.

Lemma iteration_progress_witness :
  (exists ch' x,
      iteration IntChain.maybe_lt (IntChain.constant 7)
        (IntChain.train1 [1; 2] 1 IntChain.empty) [] [nothing]
      = Next ch' ([] ++ [x]) (shift [nothing] x)) \/
  (exists ch',
      iteration IntChain.maybe_lt (IntChain.constant 7)
        (IntChain.train1 [1; 2] 1 IntChain.empty) [] [nothing]
      = Done (Returned []) ch').
Proof.
  apply (iteration_progress IntChain.maybe_lt (IntChain.constant 7)
           (IntChain.train1 [1; 2] 1 IntChain.empty) [] [nothing]
           [(just 1, 1)]).
  - reflexivity.
  - repeat constructor; discriminate.
  - split; reflexivity.
Defined.

(** X17: a [train] call on a table whose transitions have positive totals
    adds to the sum of all counters exactly its count for every symbol of
    the input and 1 for the terminator, as long as that sum stays within
    [counter]; and the totals stay positive. *)
Theorem train_adds_to_total {T random : Type}
  (maybe_lt : maybe T -> maybe T -> bool) (order : nat) (inp : input T)
  (c : Z) (ch : chain T random) :
  0 < c -> well_counted (transitions ch) ->
  table_count (transitions ch) + c * Z.of_nat (length inp) + 1
  < Counter.modulus ->
  well_counted (transitions (train maybe_lt order inp c ch)) /\
  table_count (transitions (train maybe_lt order inp c ch))
  = table_count (transitions ch) + c * Z.of_nat (length inp) + 1.
Proof. apply train_count. Qed.

Lemma train_adds_to_total_witness :
  well_counted (transitions (IntChain.train1 [1; 1; 2] 5 IntChain.empty)) /\
  table_count (transitions (IntChain.train1 [1; 1; 2] 5 IntChain.empty))
  = table_count (transitions IntChain.empty)
    + 5 * Z.of_nat (length [1; 1; 2]) + 1.
Proof.
  apply (train_adds_to_total IntChain.maybe_lt 1 [1; 1; 2] 5 IntChain.empty).
  - reflexivity.
  - constructor.
  - reflexivity.
Defined.


(** * Training the empty sequence very often *)

Section EmptyOften.
Context {T random : Type}.
Variable maybe_lt : maybe T -> maybe T -> bool.
Variable order : nat.
Hypothesis nothing_irrefl : maybe_lt nothing nothing = false.

Lemma wrap_wrap (x : Z) : Counter.wrap (Counter.wrap x) = Counter.wrap x.
Proof. unfold Counter.wrap. apply Z.mod_mod. discriminate. Qed.

(** Every call on the empty sequence adds 1, modulo [2^64], to the one
    counter of the table. *)
Lemma train_all_empty_wrap (ws : list Z) :
  forall (k : Z) (ch : chain T random),
  Counter.wrap k = k ->
  transitions ch = [(null_state order, [(nothing, k)])] ->
  transitions (train_all maybe_lt order (map (fun w => ([], w)) ws) ch)
  = [(null_state order,
      [(nothing, Counter.wrap (k + Z.of_nat (length ws)))])].
Proof.
  induction ws as [|w ws IH]; intros k ch Hk E.
  - simpl. now rewrite Z.add_0_r, Hk.
  - cbn [map]. rewrite train_all_cons. cbn [fst snd].
    rewrite (IH (Counter.add k 1)).
    + unfold Counter.add. rewrite wrap_add_l, length_cons, Nat2Z.inj_succ.
      replace (k + 1 + Z.of_nat (length ws))
        with (k + Z.succ (Z.of_nat (length ws))) by lia.
      reflexivity.
    + apply wrap_wrap.
    + exact (train_empty_again maybe_lt order nothing_irrefl w k ch E).
Qed.

Lemma train_all_empty_fresh (n : nat) (g : random) :
  n <> 0%nat ->
  transitions (train_all maybe_lt order
                 (map (fun w : Z => ([], w)) (repeat 1 n)) (fresh g))
  = [(null_state order, [(nothing, Counter.wrap (Z.of_nat n))])].
Proof.
  destruct n as [|n]; [contradiction|]. intros _.
  cbn [repeat map]. rewrite train_all_cons. cbn [fst snd].
  rewrite (train_all_empty_wrap (repeat 1 n) 1); [| reflexivity | reflexivity].
  now rewrite repeat_length, Nat2Z.inj_succ, Z.add_1_l.
Qed.

(** With the terminator alone in the transition of the null state, and a
    modulus of zero, the call divides by zero at its first pass. *)
Lemma generate_divides_by_zero (draw : random -> N * random)
  (ch : chain T random) (n : Z) (fuel : nat) :
  transitions ch = [(null_state order, [(nothing, n)])] ->
  accumulate (T:=T) [(nothing, n)] = 0 ->
  fst (generate maybe_lt order draw (S fuel) ch) = DivideByZero.
Proof.
  intros E Ha. unfold generate. cbn [loop]. unfold iteration. rewrite E.
  cbn [find]. rewrite (equiv_refl (memory_lt maybe_lt))
    by apply (null_state_irrefl maybe_lt order nothing_irrefl).
  cbv zeta. now rewrite Ha.
Qed.

(** With the terminator counted [2^31] times, the modulus is the
    sign-extended [2^64 - 2^31]; a draw above [2^31] is above the count, the
    scan runs off the transition, and the pass changes nothing. *)
Lemma generate_spins (draw : random -> N * random) (v : N) :
  (forall s, fst (draw s) = v) -> 2 ^ 31 < Z.of_N v < 2 ^ 64 - 2 ^ 31 ->
  forall (fuel : nat) (ch : chain T random) (rv : output T),
  transitions ch = [(null_state order, [(nothing, 2 ^ 31)])] ->
  fst (loop maybe_lt draw fuel ch rv (null_state order)) = OutOfFuel.
Proof.
  intros Hv Hr. induction fuel as [|fuel IH]; intros ch rv E; [reflexivity|].
  cbn [loop]. unfold iteration. rewrite E.
  cbn [find]. rewrite (equiv_refl (memory_lt maybe_lt))
    by apply (null_state_irrefl maybe_lt order nothing_irrefl).
  cbv zeta.
  change (accumulate (T:=T) [(nothing, 2 ^ 31)]) with (2 ^ 64 - 2 ^ 31).
  change (2 ^ 64 - 2 ^ 31 =? 0) with false. cbv iota.
  rewrite Hv, Z.mod_small by lia.
  unfold sample. cbn [scan].
  destruct (2 ^ 31 <? Z.of_N v) eqn:F; [|apply Z.ltb_ge in F; lia].
  apply IH. reflexivity.
Qed.
End EmptyOften.


(** The same at the input itself: the table after the [2^32] calls, and the
    outcome for every random source and every fuel. *)
Lemma empty_training_at_2_32 :
  transitions (train_all IntChain.maybe_lt 1
                 (map (fun w : Z => ([], w)) (repeat 1 (Z.to_nat (2 ^ 32))))
                 (fresh tt))
  = [([nothing], [(nothing, 2 ^ 32)])] /\
  forall (draw : unit -> N * unit) (fuel : nat),
    fst (generate IntChain.maybe_lt 1 draw (S fuel)
           (train_all IntChain.maybe_lt 1
              (map (fun w : Z => ([], w)) (repeat 1 (Z.to_nat (2 ^ 32))))
              (fresh tt)))
    = DivideByZero.
Proof.
  assert (Hn : Z.of_nat (Z.to_nat (2 ^ 32)) = 2 ^ 32)
    by (apply Z2Nat.id; discriminate).
  assert (Hz : Z.to_nat (2 ^ 32) <> 0%nat).
  { intros E. rewrite E in Hn. discriminate Hn. }
  revert Hn Hz. generalize (Z.to_nat (2 ^ 32)) as n. intros n Hn Hz.
  assert (E : transitions (train_all IntChain.maybe_lt 1
                             (map (fun w : Z => ([], w)) (repeat 1 n))
                             (fresh tt))
              = [(null_state 1, [(nothing, 2 ^ 32)])]).
  { rewrite (train_all_empty_fresh IntChain.maybe_lt 1 eq_refl n tt Hz), Hn.
    reflexivity. }
  split; [exact E|]. intros draw fuel.
  now apply (generate_divides_by_zero IntChain.maybe_lt 1 eq_refl draw _
               (2 ^ 32)).
Qed.

(** By design of the 64-bit counter, [2^64] calls wrap the terminator
    round to 0, and the call divides by zero as well. *)
Lemma empty_training_counter_wraps :
  transitions (train_all IntChain.maybe_lt 1
                 (map (fun w : Z => ([], w)) (repeat 1 (Z.to_nat (2 ^ 64))))
                 (fresh tt))
  = [([nothing], [(nothing, 0)])] /\
  forall (draw : unit -> N * unit) (fuel : nat),
    fst (generate IntChain.maybe_lt 1 draw (S fuel)
           (train_all IntChain.maybe_lt 1
              (map (fun w : Z => ([], w)) (repeat 1 (Z.to_nat (2 ^ 64))))
              (fresh tt)))
    = DivideByZero.
Proof.
  assert (Hn : Z.of_nat (Z.to_nat (2 ^ 64)) = 2 ^ 64)
    by (apply Z2Nat.id; discriminate).
  assert (Hz : Z.to_nat (2 ^ 64) <> 0%nat).
  { intros E. rewrite E in Hn. discriminate Hn. }
  revert Hn Hz. generalize (Z.to_nat (2 ^ 64)) as n. intros n Hn Hz.
  assert (E : transitions (train_all IntChain.maybe_lt 1
                             (map (fun w : Z => ([], w)) (repeat 1 n))
                             (fresh tt))
              = [(null_state 1, [(nothing, 0)])]).
  { rewrite (train_all_empty_fresh IntChain.maybe_lt 1 eq_refl n tt Hz), Hn.
    reflexivity. }
  split; [exact E|]. intros draw fuel.
  now apply (generate_divides_by_zero IntChain.maybe_lt 1 eq_refl draw _ 0).
Qed.

(** The bound [2^31] of the amended claim is where the failures begin:
    after exactly [2^31] calls, a random source that always returns
    [2^32 - 1] keeps the generator in its loop for ever. *)
Lemma empty_training_can_spin (fuel : nat) :
  fst (generate IntChain.maybe_lt 1 (IntChain.constant 4294967295) fuel
         (train_all IntChain.maybe_lt 1
            (map (fun w : Z => ([], w)) (repeat 1 (Z.to_nat (2 ^ 31))))
            (fresh tt)))
  = OutOfFuel.
Proof.
  assert (Hn : Z.of_nat (Z.to_nat (2 ^ 31)) = 2 ^ 31)
    by (apply Z2Nat.id; discriminate).
  assert (Hz : Z.to_nat (2 ^ 31) <> 0%nat).
  { intros E. rewrite E in Hn. discriminate Hn. }
  revert Hn Hz. generalize (Z.to_nat (2 ^ 31)) as n. intros n Hn Hz.
  unfold generate.
  apply (generate_spins IntChain.maybe_lt 1 eq_refl
           (IntChain.constant 4294967295) 4294967295).
  - reflexivity.
  - split; reflexivity.
  - rewrite (train_all_empty_fresh IntChain.maybe_lt 1 eq_refl n tt Hz), Hn.
    reflexivity.
Qed.
